(** * Input reorder kernel of the denoising runtime

    A shallow embedding of [InputReorderNode] and of the device kernel
    [InputReorder<T>] (the tile-aware InputProcess of the specification),
    followed by the properties of the kernel that the specification states.

    Conventions of the embedding.
    - C++ [int] values are integers of [Z]; signed overflow is undefined
      behaviour in C++ and lies outside the model.
    - [float] is IEEE-754 binary32 and [half] binary16, both as [spec_float]
      of the standard library, with round-to-nearest-even.
    - The destination tensor memory is a finite map from coordinates
      [(c, h, w)] to [half] values; a cell that was never written is absent.
    - A kernel invocation is a state transformer over the tensor memory and
      a log of the source coordinates it has read.
    - An [assert] that fails aborts the program: the operation yields [None]. *)

From Stdlib Require Import ZArith Bool List Lia.
From Stdlib Require Import Floats.SpecFloat.
From stdpp Require Import base option gmap.

Open Scope Z_scope.

(** ** binary32 and binary16 values *)

Module F32.

Definition prec : Z := 24.
Definition emax : Z := 128.

Definition float := spec_float.

Definition mul : float -> float -> float := SFmul prec emax.
Definition add : float -> float -> float := SFadd prec emax.
Definition div : float -> float -> float := SFdiv prec emax.
Definition ltb : float -> float -> bool := SFltb.

(** The literals of the kernel: [0.f], [1.f], [-1.f], [0.5f]. *)
Definition zero : float := S754_zero false.
Definition one : float := Eval vm_compute in binary_normalize prec emax 1 0 false.
Definition neg_one : float := Eval vm_compute in SFopp one.
Definition half : float := Eval vm_compute in binary_normalize prec emax 1 (-1) false.

(** [std::numeric_limits<float>::max()], the largest finite binary32. *)
Definition max_float : float := Eval vm_compute in SFmax_float prec emax.

Definition infinity : float := S754_infinity false.
Definition nan : float := S754_nan.

Definition isnan (x : float) : bool :=
  match x with S754_nan => true | _ => false end.

Definition is_finite (x : float) : bool :=
  match x with S754_zero _ | S754_finite _ _ _ => true | _ => false end.

(** Modelled from the spec: [nan_to_zero] is declared outside these
    sources; the specification says it replaces NaN with 0. *)
Definition nan_to_zero (x : float) : float :=
  if isnan x then zero else x.

(** Modelled from the spec: [min], [max] and [clamp] are declared outside
    these sources; the specification says [clamp] brings a value into
    [[lo, hi]].  They are the usual comparisons, [clamp x lo hi] being
    [min (max x lo) hi]. *)
Definition max (a b : float) : float := if ltb a b then b else a.
Definition min (a b : float) : float := if ltb b a then b else a.
Definition clamp (x lo hi : float) : float := min (max x lo) hi.

End F32.

Module F16.

Definition prec : Z := 11.
Definition emax : Z := 16.

Definition half := spec_float.

Definition zero : half := S754_zero false.

Definition is_finite (x : half) : bool :=
  match x with S754_zero _ | S754_finite _ _ _ => true | _ => false end.

(** Narrowing of a binary32 value to the [half] element type of the
    destination accessor, rounding to nearest even. *)
Definition of_float (x : F32.float) : half :=
  match x with
  | S754_finite s m e => binary_round prec emax s m e
  | _ => x
  end.

End F16.

(** ** Three-component vectors *)

Record vec3f := Vec3f { vx : F32.float; vy : F32.float; vz : F32.float }.

Definition vec3_map (f : F32.float -> F32.float) (v : vec3f) : vec3f :=
  Vec3f (f (vx v)) (f (vy v)) (f (vz v)).

(** [value * s] and [value + s] for a scalar [s]. *)
Definition vmul (v : vec3f) (s : F32.float) : vec3f := vec3_map (fun a => F32.mul a s) v.
Definition vadd (v : vec3f) (s : F32.float) : vec3f := vec3_map (fun a => F32.add a s) v.
Definition vnan_to_zero (v : vec3f) : vec3f := vec3_map F32.nan_to_zero v.
Definition vclamp (v : vec3f) (lo hi : F32.float) : vec3f :=
  vec3_map (fun a => F32.clamp a lo hi) v.

(** ** The collaborators of the kernel *)

(** Modelled from the spec: the transfer function is consumed through
    [getInputScale() -> float] and [forward(vec3) -> vec3]; its
    implementations are outside these sources. *)
Record TransferFunction := {
  getInputScale : F32.float;
  forward : vec3f -> vec3f
}.

(** An image accessor: [ptr] is null for an absent image, otherwise it
    gives the pixels, already widened to [float], by row and column. *)
Record ImageAccessor := { ptr : option (Z -> Z -> vec3f) }.

(** The destination accessor: its extent; the cells are in the state. *)
Record TensorAccessor := { C : Z; H : Z; W : Z }.

Record ReorderTile := {
  hSrcBegin : Z; wSrcBegin : Z;
  hDstBegin : Z; wDstBegin : Z;
  tileH : Z; tileW : Z
}.

(** ** Kernel state and its monad *)

Abbreviation cells := (gmap (Z * Z * Z) F16.half).

Record KState := { mem : cells; reads : list (Z * Z) }.

(** A tensor in which no cell has been written yet, and an empty log. *)
Definition empty_state : KState := {| mem := ∅; reads := [] |}.

Definition Kernel (A : Type) : Type := KState -> A * KState.

Definition kret {A} (a : A) : Kernel A := fun s => (a, s).
Definition kbind {A B} (p : Kernel A) (f : A -> Kernel B) : Kernel B :=
  fun s => let (a, s') := p s in f a s'.

Declare Scope kernel_scope.
Delimit Scope kernel_scope with kernel.
Notation "x <-- p ;; q" := (kbind p (fun x => q))
  (at level 90, p at next level, right associativity) : kernel_scope.
Notation "p ;;; q" := (kbind p (fun _ => q))
  (at level 90, right associativity) : kernel_scope.

(** [dst.set(c, h, w, v)]: one cell of the tensor receives [v] as a half. *)
Definition dst_set (c h w : Z) (v : F32.float) : Kernel unit :=
  fun s => (tt, {| mem := <[(c, h, w) := F16.of_float v]> (mem s); reads := reads s |}).

(** Modelled from the spec: [set3] belongs to the tensor accessor, outside
    these sources; the specification says each store writes 3 channels,
    here [c], [c+1] and [c+2]. *)
Definition dst_set3 (c h w : Z) (v : vec3f) : Kernel unit :=
  (dst_set c h w (vx v) ;;;
   dst_set (c + 1) h w (vy v) ;;;
   dst_set (c + 2) h w (vz v))%kernel.

(** [img.get3(h, w)]: the pixel, and the coordinate joins the read log. *)
Definition get3 (px : Z -> Z -> vec3f) (h w : Z) : Kernel vec3f :=
  fun s => (px h w, {| mem := mem s; reads := (h, w) :: reads s |}).

(** ** The kernel [InputReorder<T>] *)

Record InputReorder := {
  color : ImageAccessor;
  albedo : ImageAccessor;
  normal : ImageAccessor;
  dst : TensorAccessor;
  tile : ReorderTile;
  transferFunc : TransferFunction;
  hdr : bool;
  snorm : bool
}.

Definition has_ptr (a : ImageAccessor) : bool :=
  match ptr a with Some _ => true | None => false end.

Section Kernel.

Variable k : InputReorder.

Definition storeZero (c h w : Z) : Kernel unit :=
  dst_set c h w F32.zero.

Definition storeColor (c h w : Z) (value : vec3f) : Kernel unit :=
  (* Scale *)
  let value := vmul value (getInputScale (transferFunc k)) in
  (* Sanitize *)
  let value := vclamp (vnan_to_zero value)
                 (if snorm k then F32.neg_one else F32.zero)
                 (if hdr k then F32.max_float else F32.one) in
  (* Transform to [0..1] *)
  let value := if snorm k then vadd (vmul value F32.half) F32.half else value in
  (* Apply the transfer function *)
  let value := forward (transferFunc k) value in
  dst_set3 c h w value.

Definition storeAlbedo (c h w : Z) (value : vec3f) : Kernel unit :=
  let value := if negb (has_ptr (color k))
               then vmul value (getInputScale (transferFunc k)) else value in
  let value := vclamp (vnan_to_zero value) F32.zero F32.one in
  let value := if negb (has_ptr (color k))
               then forward (transferFunc k) value else value in
  dst_set3 c h w value.

Definition storeNormal (c h w : Z) (value : vec3f) : Kernel unit :=
  let value := if negb (has_ptr (color k))
               then vmul value (getInputScale (transferFunc k)) else value in
  let value := vclamp (vnan_to_zero value) F32.neg_one F32.one in
  let value := vadd (vmul value F32.half) F32.half in
  dst_set3 c h w value.

(** [for (; c < dst.C; ++c) storeZero(c, h, w)], by its trip count. *)
Fixpoint storeZero_loop (n : nat) (c h w : Z) : Kernel unit :=
  match n with
  | O => kret tt
  | S n' => (storeZero c h w ;;; storeZero_loop n' (c + 1) h w)%kernel
  end.

Definition zero_fill (c h w : Z) : Kernel unit :=
  storeZero_loop (Z.to_nat (C (dst k) - c)) c h w.

(** One optional image: [if (img.ptr) { store(c, ..., img.get3(hSrc, wSrc)); c += 3; }]. *)
Definition store_image (img : ImageAccessor)
    (store : Z -> Z -> Z -> vec3f -> Kernel unit)
    (c hDst wDst hSrc wSrc : Z) : Kernel Z :=
  match ptr img with
  | Some px =>
      (v <-- get3 px hSrc wSrc ;; store c hDst wDst v ;;; kret (c + 3))%kernel
  | None => kret c
  end.

Definition in_tile (hDst wDst : Z) : bool :=
  let h := hDst - hDstBegin (tile k) in
  let w := wDst - wDstBegin (tile k) in
  (0 <=? h) && (h <? tileH (tile k)) && (0 <=? w) && (w <? tileW (tile k)).

(** [operator()(hDst, wDst)].  Inside the tile the inner [wDst] shadows
    the parameter. *)
Definition InputReorder_call (hDst wDst : Z) : Kernel unit :=
  let h := hDst - hDstBegin (tile k) in
  let w := wDst - wDstBegin (tile k) in
  if (0 <=? h) && (h <? tileH (tile k)) && (0 <=? w) && (w <? tileW (tile k)) then
    let hSrc := h + hSrcBegin (tile k) in
    let wSrc := w + wSrcBegin (tile k) in
    let wDst := w + wDstBegin (tile k) in
    (c <-- store_image (color k) storeColor 0 hDst wDst hSrc wSrc ;;
     c <-- store_image (albedo k) storeAlbedo c hDst wDst hSrc wSrc ;;
     c <-- store_image (normal k) storeNormal c hDst wDst hSrc wSrc ;;
     zero_fill c hDst wDst)%kernel
  else
    (* Zero pad *)
    zero_fill 0 hDst wDst.

End Kernel.

(** ** Dispatch of the kernel over the destination *)

(** The index space of [sycl::range<2>(H, W)], row by row. *)
Definition range2 (H W : Z) : list (Z * Z) :=
  h ← seqZ 0 H; (λ w, (h, w)) <$> seqZ 0 W.

(** The work-items of a schedule, one after the other.  Work-items write
    disjoint cells, so the order is immaterial for the tensor (see
    [run_items_mem_perm]). *)
Fixpoint run_items (k : InputReorder) (items : list (Z * Z)) : Kernel unit :=
  match items with
  | [] => kret tt
  | (hDst, wDst) :: rest =>
      (InputReorder_call k hDst wDst ;;; run_items k rest)%kernel
  end.

Definition parallel_for (k : InputReorder) : Kernel unit :=
  run_items k (range2 (H (dst k)) (W (dst k))).

(** ** The node *)

Module Image.
(** A source image: its extent, its channel count and its pixels
    (three components per pixel, as [get3] reads them). *)
Record t := {
  height : Z;
  width : Z;
  numChannels : Z;
  pixels : Z -> Z -> vec3f
}.

(** [img ? *img : Image()]: the accessor of an optional image. *)
Definition accessor (img : option t) : ImageAccessor :=
  {| ptr := pixels <$> img |}.
End Image.

Module Tensor.
(** The tensor layouts; [oihw] stands for the layouts of weight tensors. *)
Inductive TensorLayout := chw | Chw8c | Chw16c | oihw.

(** The destination tensor descriptor; [dims0] is [dims[0]], the channel
    count of a three-dimensional tensor. *)
Record t := {
  ndims : Z;
  layout : TensorLayout;
  blockSize : Z;
  dims0 : Z;
  height : Z;
  width : Z
}.

Definition layout_ok (l : TensorLayout) : bool :=
  match l with chw | Chw8c | Chw16c => true | _ => false end.

Definition accessor (d : t) : TensorAccessor :=
  {| C := dims0 d; H := height d; W := width d |}.
End Tensor.

Module InputReorderNode.

Record t := {
  dst : Tensor.t;
  transferFunc : TransferFunction;
  hdr : bool;
  snorm : bool;
  color : option Image.t;
  albedo : option Image.t;
  normal : option Image.t;
  tile : ReorderTile
}.

Definition setTile (hSrc wSrc hDst wDst H W : Z) (n : t) : t :=
  {| dst := dst n; transferFunc := transferFunc n; hdr := hdr n; snorm := snorm n;
     color := color n; albedo := albedo n; normal := normal n;
     tile := {| hSrcBegin := hSrc; wSrcBegin := wSrc;
                hDstBegin := hDst; wDstBegin := wDst;
                tileH := H; tileW := W |} |}.

(** The constructor.  [tensorBlockSize] is [device->getTensorBlockSize()];
    [tile0] stands for the tile member before the constructor body runs. *)
Definition make (tensorBlockSize : Z) (dst : Tensor.t)
    (transferFunc : TransferFunction) (hdr snorm : bool)
    (tile0 : ReorderTile) : option t :=
  if (Tensor.ndims dst =? 3)
     && Tensor.layout_ok (Tensor.layout dst)
     && (Tensor.blockSize dst =? tensorBlockSize)
  then Some (setTile 0 0 0 0 0 0
               {| dst := dst; transferFunc := transferFunc; hdr := hdr; snorm := snorm;
                  color := None; albedo := None; normal := None; tile := tile0 |})
  else None.

Definition channels (img : option Image.t) : Z :=
  match img with Some i => Image.numChannels i | None => 0 end.

Definition setSrc (color albedo normal : option Image.t) (n : t) : option t :=
  if channels color + channels albedo + channels normal <=? Tensor.dims0 (dst n)
  then Some {| dst := dst n; transferFunc := transferFunc n; hdr := hdr n; snorm := snorm n;
               color := color; albedo := albedo; normal := normal; tile := tile n |}
  else None.

(** The kernel object that [executeKernel] fills in from the node. *)
Definition kernel (n : t) : InputReorder :=
  Build_InputReorder
    (Image.accessor (color n)) (Image.accessor (albedo n)) (Image.accessor (normal n))
    (Tensor.accessor (dst n)) (tile n) (transferFunc n) (hdr n) (snorm n).

(** The four assertions that open [execute] and [executeKernel]. *)
Definition tile_in_bounds (tl : ReorderTile) (input : Image.t) (d : Tensor.t) : bool :=
  (tileH tl + hSrcBegin tl <=? Image.height input)
  && (tileW tl + wSrcBegin tl <=? Image.width input)
  && (tileH tl + hDstBegin tl <=? Tensor.height d)
  && (tileW tl + wDstBegin tl <=? Tensor.width d).

Section Execute.

(** [getInput()] is declared in the header of the node, outside these
    sources: it is a parameter here.  [None] stands for a null pointer. *)
Variable getInput : t -> option Image.t.

(** [SYCLInputReorderNode::executeKernel<T>]: the assertions, then the
    kernel over the index space of the destination.  The pixel type [T]
    only fixes how [get3] widens a source pixel to [float], so that one
    definition stands for both instances. *)
Definition executeKernel (n : t) (s : KState) : option KState :=
  input ← getInput n;
  if tile_in_bounds (tile n) input (dst n)
  then Some (snd (parallel_for (kernel n) s))
  else None.

(** [ispc::InputReorder_kernel(&impl, hDst)], the vectorised kernel of the
    CPU node, is outside these sources: it is a parameter here, one call
    per row of the destination. *)
Variable InputReorder_kernel : InputReorder -> Z -> Kernel unit.

(** [parallel_nd(n, body)]: [body] at every index below [n]. *)
Definition parallel_nd (n : Z) (body : Z -> Kernel unit) : Kernel unit :=
  foldr (fun hDst rest => (body hDst ;;; rest)%kernel) (kret tt) (seqZ 0 n).

(** [CPUInputReorderNode::execute]: the same assertions, then the rows. *)
Definition execute (n : t) (s : KState) : option KState :=
  input ← getInput n;
  if tile_in_bounds (tile n) input (dst n)
  then Some (snd (parallel_nd (H (Tensor.accessor (dst n)))
                    (InputReorder_kernel (kernel n)) s))
  else None.

End Execute.

End InputReorderNode.

(** * Definitions for the statements *)

(** The values that the three stores hand to [set3]. *)
Definition color_value (k : InputReorder) (value : vec3f) : vec3f :=
  let value := vmul value (getInputScale (transferFunc k)) in
  let value := vclamp (vnan_to_zero value)
                 (if snorm k then F32.neg_one else F32.zero)
                 (if hdr k then F32.max_float else F32.one) in
  let value := if snorm k then vadd (vmul value F32.half) F32.half else value in
  forward (transferFunc k) value.

Definition albedo_value (k : InputReorder) (value : vec3f) : vec3f :=
  let value := if negb (has_ptr (color k))
               then vmul value (getInputScale (transferFunc k)) else value in
  let value := vclamp (vnan_to_zero value) F32.zero F32.one in
  if negb (has_ptr (color k)) then forward (transferFunc k) value else value.

Definition normal_value (k : InputReorder) (value : vec3f) : vec3f :=
  let value := if negb (has_ptr (color k))
               then vmul value (getInputScale (transferFunc k)) else value in
  let value := vclamp (vnan_to_zero value) F32.neg_one F32.one in
  vadd (vmul value F32.half) F32.half.

(** Component [i] of a vector, for [i] in 0, 1, 2. *)
Definition vcomp (v : vec3f) (i : Z) : F32.float :=
  if i =? 0 then vx v else if i =? 1 then vy v else vz v.

(** The cell that an optional image contributes at channel [c'], over
    what was there before. *)
Definition image_cell (img : ImageAccessor) (value : vec3f -> vec3f)
    (base hSrc wSrc c' : Z) (before : option F16.half) : option F16.half :=
  match ptr img with
  | Some px =>
      if decide (base <= c' < base + 3)
      then Some (F16.of_float (vcomp (value (px hSrc wSrc)) (c' - base)))
      else before
  | None => before
  end.

Definition image_reads (img : ImageAccessor) (hSrc wSrc : Z) : list (Z * Z) :=
  if has_ptr img then [(hSrc, wSrc)] else [].

Definition next_channel (img : ImageAccessor) (c : Z) : Z :=
  if has_ptr img then c + 3 else c.

(** The source coordinate that the work-item of [(hDst, wDst)] reads. *)
Definition src_coord (k : InputReorder) (hDst wDst : Z) : Z * Z :=
  (hDst - hDstBegin (tile k) + hSrcBegin (tile k),
   wDst - wDstBegin (tile k) + wSrcBegin (tile k)).

(** Channel [c'] of the pixel of a work-item after it has run, over what
    the cell held before. *)
Definition pixel_cell (k : InputReorder) (hDst wDst c' : Z)
    (before : option F16.half) : option F16.half :=
  if in_tile k hDst wDst then
    let '(hSrc, wSrc) := src_coord k hDst wDst in
    let c1 := next_channel (color k) 0 in
    let c2 := next_channel (albedo k) c1 in
    let c3 := next_channel (normal k) c2 in
    if decide (c3 <= c' < C (dst k)) then Some F16.zero
    else image_cell (normal k) (normal_value k) c2 hSrc wSrc c'
           (image_cell (albedo k) (albedo_value k) c1 hSrc wSrc c'
              (image_cell (color k) (color_value k) 0 hSrc wSrc c' before))
  else
    if decide (0 <= c' < C (dst k)) then Some F16.zero else before.

Definition call_reads (k : InputReorder) (hDst wDst : Z) : list (Z * Z) :=
  if in_tile k hDst wDst then
    let '(hSrc, wSrc) := src_coord k hDst wDst in
    image_reads (normal k) hSrc wSrc ++ image_reads (albedo k) hSrc wSrc
      ++ image_reads (color k) hSrc wSrc
  else [].

Fixpoint items_reads (k : InputReorder) (items : list (Z * Z)) : list (Z * Z) :=
  match items with
  | [] => []
  | (hDst, wDst) :: rest => items_reads k rest ++ call_reads k hDst wDst
  end.

(** The destination after the dispatch, from any earlier content. *)
Definition result (k : InputReorder) (s : KState) : cells :=
  mem (snd (parallel_for k s)).

Module Node := InputReorderNode.

(** A work-item leaves every cell outside the channels [[0, C)] as it was. *)
Definition writes_within_C (k : InputReorder) : Prop :=
  ∀ s hDst wDst c h w,
    ¬ (0 <= c < C (dst k)) ->
    mem (snd (InputReorder_call k hDst wDst s)) !! (c, h, w) = mem s !! (c, h, w).

Definition at_least_3 (img : option Image.t) : Prop :=
  match img with Some i => 3 <= Image.numChannels i | None => True end.

(** The nodes reached from a constructed node without any [setTile]:
    only [setSrc] has been called. *)
Inductive fresh_from (n0 : Node.t) : Node.t -> Prop :=
| fresh_made : fresh_from n0 n0
| fresh_setSrc n cimg aimg nimg n' :
    fresh_from n0 n ->
    Node.setSrc cimg aimg nimg n = Some n' ->
    fresh_from n0 n'.

Definition zero_tile : ReorderTile :=
  {| hSrcBegin := 0; wSrcBegin := 0; hDstBegin := 0; wDstBegin := 0;
     tileH := 0; tileW := 0 |}.

(** A transfer function that applies one tone curve [f] to each component,
    where [f] is finite -- as a half -- at 0 and at 0.5. *)
Definition tone_curve (tf : TransferFunction) (f : F32.float -> F32.float) : Prop :=
  (∀ v, forward tf v = vec3_map f v) ∧
  F16.is_finite (F16.of_float (f F32.zero)) = true ∧
  F16.is_finite (F16.of_float (f F32.half)) = true.

(** Two accessors agree at a coordinate: both absent, or both present with
    the same pixel there. *)
Definition same_pixel (a b : ImageAccessor) (hw : Z * Z) : Prop :=
  match ptr a, ptr b with
  | Some p, Some q => p hw.1 hw.2 = q hw.1 hw.2
  | None, None => True
  | _, _ => False
  end.

Module Sample.

(** The linear transfer function: input scale 1, identity curve. *)
Definition linear : TransferFunction :=
  {| getInputScale := F32.one; forward := vec3_map (fun v => v) |}.

(** A Reinhard tone curve, [v / (v + 1)] on each component. *)
Definition reinhard : TransferFunction :=
  {| getInputScale := F32.one;
     forward := vec3_map (fun v => F32.div v (F32.add v F32.one)) |}.

Definition two : F32.float :=
  Eval vm_compute in binary_normalize F32.prec F32.emax 2 0 false.
Definition quarter : F32.float :=
  Eval vm_compute in binary_normalize F32.prec F32.emax 1 (-2) false.

(** Source pixels; the one at (0,0) has NaN components. *)
Definition color_px (h w : Z) : vec3f :=
  if (h =? 0) && (w =? 0) then Vec3f F32.nan quarter two
  else Vec3f two F32.half F32.zero.
Definition albedo_px (h w : Z) : vec3f :=
  if (h =? 0) && (w =? 0) then Vec3f F32.nan F32.half two
  else Vec3f quarter quarter quarter.
Definition normal_px (h w : Z) : vec3f :=
  if (h =? 0) && (w =? 0) then Vec3f F32.nan F32.neg_one F32.one
  else Vec3f F32.zero F32.zero F32.one.

(** A 2 x 2 tile placed at (1,1) of a 4 x 4 destination. *)
Definition tile22 : ReorderTile :=
  {| hSrcBegin := 0; wSrcBegin := 0; hDstBegin := 1; wDstBegin := 1;
     tileH := 2; tileW := 2 |}.

Definition kernel9 : InputReorder :=
  {| color := {| ptr := Some color_px |};
     albedo := {| ptr := Some albedo_px |};
     normal := {| ptr := Some normal_px |};
     dst := {| C := 9; H := 4; W := 4 |};
     tile := tile22; transferFunc := linear; hdr := false; snorm := false |}.

Definition kernel_color_only : InputReorder :=
  {| color := {| ptr := Some color_px |};
     albedo := {| ptr := None |};
     normal := {| ptr := None |};
     dst := {| C := 9; H := 4; W := 4 |};
     tile := tile22; transferFunc := linear; hdr := false; snorm := true |}.

Definition kernel_aux_only : InputReorder :=
  {| color := {| ptr := None |};
     albedo := {| ptr := Some albedo_px |};
     normal := {| ptr := Some normal_px |};
     dst := {| C := 9; H := 4; W := 4 |};
     tile := tile22; transferFunc := reinhard; hdr := false; snorm := false |}.

(** An HDR color image with an infinite component, one pixel. *)
Definition inf_px (h w : Z) : vec3f := Vec3f F32.infinity F32.one F32.zero.

Definition kernel_hdr : InputReorder :=
  {| color := {| ptr := Some inf_px |};
     albedo := {| ptr := None |};
     normal := {| ptr := None |};
     dst := {| C := 3; H := 1; W := 1 |};
     tile := {| hSrcBegin := 0; wSrcBegin := 0; hDstBegin := 0; wDstBegin := 0;
                tileH := 1; tileW := 1 |};
     transferFunc := reinhard; hdr := true; snorm := false |}.

(** Images and tensors for the node. *)
Definition rgb : Image.t :=
  {| Image.height := 2; Image.width := 2; Image.numChannels := 3;
     Image.pixels := color_px |}.
Definition gray : Image.t :=
  {| Image.height := 1; Image.width := 1; Image.numChannels := 1;
     Image.pixels := color_px |}.

Definition tensor9 : Tensor.t :=
  {| Tensor.ndims := 3; Tensor.layout := Tensor.chw; Tensor.blockSize := 1;
     Tensor.dims0 := 9; Tensor.height := 4; Tensor.width := 4 |}.
Definition tensor1 : Tensor.t :=
  {| Tensor.ndims := 3; Tensor.layout := Tensor.chw; Tensor.blockSize := 1;
     Tensor.dims0 := 1; Tensor.height := 1; Tensor.width := 1 |}.

Definition some_tile : ReorderTile :=
  {| hSrcBegin := 7; wSrcBegin := 7; hDstBegin := 7; wDstBegin := 7;
     tileH := 7; tileW := 7 |}.

(** The first image that is present, as the input image. *)
Definition first_input (n : InputReorderNode.t) : option Image.t :=
  match InputReorderNode.color n with
  | Some i => Some i
  | None =>
      match InputReorderNode.albedo n with
      | Some i => Some i
      | None => InputReorderNode.normal n
      end
  end.

Definition made (d : Tensor.t) : InputReorderNode.t :=
  InputReorderNode.setTile 0 0 0 0 0 0
    {| InputReorderNode.dst := d; InputReorderNode.transferFunc := linear;
       InputReorderNode.hdr := false; InputReorderNode.snorm := false;
       InputReorderNode.color := None; InputReorderNode.albedo := None;
       InputReorderNode.normal := None; InputReorderNode.tile := some_tile |}.

Definition with_rgb (d : Tensor.t) : InputReorderNode.t :=
  {| InputReorderNode.dst := d; InputReorderNode.transferFunc := linear;
     InputReorderNode.hdr := false; InputReorderNode.snorm := false;
     InputReorderNode.color := Some rgb; InputReorderNode.albedo := None;
     InputReorderNode.normal := None; InputReorderNode.tile := zero_tile |}.

End Sample.

(** The color transformation in the words of the specification, with the
    upper bound [hdr ? +infinity : 1] of the clamp. *)
Definition spec_color_value (tf : TransferFunction) (hdr snorm : bool)
    (value : vec3f) : vec3f :=
  let value := vmul value (getInputScale tf) in
  let value := vnan_to_zero value in
  let value := vclamp value (if snorm then F32.neg_one else F32.zero)
                            (if hdr then F32.infinity else F32.one) in
  let value := if snorm then vadd (vmul value F32.half) F32.half else value in
  forward tf value.

(** NaN among the halves of the tensor. *)
Definition is_nan16 (x : F16.half) : bool :=
  match x with S754_nan => true | _ => false end.

(** * Properties *)

(** ** What one work-item writes *)

Ltac cell_cases :=
  repeat case_decide; simplify_eq; try done; try (exfalso; lia);
  try match goal with
      | H : _ ≠ _ |- _ => exfalso; apply H; repeat f_equal; lia
      end.

Lemma storeColor_set3 k c h w v :
  storeColor k c h w v = dst_set3 c h w (color_value k v).
Proof. reflexivity. Qed.

Lemma storeAlbedo_set3 k c h w v :
  storeAlbedo k c h w v = dst_set3 c h w (albedo_value k v).
Proof. reflexivity. Qed.

Lemma storeNormal_set3 k c h w v :
  storeNormal k c h w v = dst_set3 c h w (normal_value k v).
Proof. reflexivity. Qed.

Lemma dst_set3_run c h w v s :
  ∃ m, dst_set3 c h w v s = (tt, {| mem := m; reads := reads s |}) ∧
    ∀ c' h' w', m !! (c', h', w') =
      if decide (h' = h ∧ w' = w ∧ c <= c' < c + 3)
      then Some (F16.of_float (vcomp v (c' - c)))
      else mem s !! (c', h', w').
Proof.
  eexists. split; [reflexivity|]. intros c' h' w'. cbn [mem].
  rewrite !lookup_insert. unfold vcomp.
  destruct (decide (h' = h ∧ w' = w ∧ c <= c' < c + 3)) as [(-> & -> & Hc) | Hn].
  - assert (c' = c ∨ c' = c + 1 ∨ c' = c + 2) as [-> | [-> | ->]] by lia.
    + rewrite Z.sub_diag. cbn. cell_cases.
    + replace (c + 1 - c) with 1 by lia. cbn. cell_cases.
    + replace (c + 2 - c) with 2 by lia. cbn. cell_cases.
  - cell_cases.
Qed.

Lemma storeZero_loop_run n c h w s :
  ∃ m, storeZero_loop n c h w s = (tt, {| mem := m; reads := reads s |}) ∧
    ∀ c' h' w', m !! (c', h', w') =
      if decide (h' = h ∧ w' = w ∧ c <= c' < c + Z.of_nat n)
      then Some F16.zero else mem s !! (c', h', w').
Proof.
  revert c s. induction n as [|n IH]; intros c s.
  - exists (mem s). split; [by destruct s|].
    intros. case_decide; [exfalso; lia | done].
  - cbn [storeZero_loop]. unfold kbind, storeZero, dst_set.
    destruct (IH (c + 1) {| mem := <[(c, h, w):=F16.of_float F32.zero]> (mem s);
                            reads := reads s |}) as (m & -> & Hm).
    exists m. split; [done|]. intros c' h' w'. rewrite Hm. cbn [mem].
    rewrite lookup_insert. cell_cases.
Qed.

Lemma store_image_run img store value c hDst wDst hSrc wSrc s :
  (∀ c h w v, store c h w v = dst_set3 c h w (value v)) ->
  ∃ m, store_image img store c hDst wDst hSrc wSrc s
       = (next_channel img c,
          {| mem := m; reads := image_reads img hSrc wSrc ++ reads s |}) ∧
    ∀ c' h' w', m !! (c', h', w') =
      if decide (h' = hDst ∧ w' = wDst)
      then image_cell img value c hSrc wSrc c' (mem s !! (c', h', w'))
      else mem s !! (c', h', w').
Proof.
  intros Hstore.
  unfold store_image, image_cell, image_reads, next_channel, has_ptr.
  destruct (ptr img) as [px|].
  - unfold kbind, get3. rewrite Hstore.
    match goal with
    | |- context [dst_set3 ?c ?h ?w ?v ?s] =>
        destruct (dst_set3_run c h w v s) as (m & -> & Hm)
    end.
    exists m. split; [done|]. intros c' h' w'. rewrite Hm. cbn [mem].
    cell_cases.
  - exists (mem s). split; [by destruct s|]. intros. by case_decide.
Qed.

Lemma call_run k hDst wDst s :
  ∃ m, InputReorder_call k hDst wDst s
       = (tt, {| mem := m; reads := call_reads k hDst wDst ++ reads s |}) ∧
    ∀ c' h' w', m !! (c', h', w') =
      if decide (h' = hDst ∧ w' = wDst)
      then pixel_cell k hDst wDst c' (mem s !! (c', h', w'))
      else mem s !! (c', h', w').
Proof.
  unfold InputReorder_call, pixel_cell, call_reads, in_tile, src_coord, zero_fill.
  set (h := hDst - hDstBegin (tile k)). set (w := wDst - wDstBegin (tile k)).
  replace (w + wDstBegin (tile k)) with wDst by (unfold w; lia).
  destruct ((0 <=? h) && (h <? tileH (tile k)) && (0 <=? w) && (w <? tileW (tile k))).
  - unfold kbind.
    destruct (store_image_run (color k) (storeColor k) (color_value k)
                0 hDst wDst (h + hSrcBegin (tile k)) (w + wSrcBegin (tile k)) s
                (storeColor_set3 k)) as (m1 & -> & H1).
    match goal with |- context [store_image _ _ ?c _ _ ?hs ?ws ?s1] =>
      destruct (store_image_run (albedo k) (storeAlbedo k) (albedo_value k)
                  c hDst wDst hs ws s1 (storeAlbedo_set3 k)) as (m2 & -> & H2) end.
    match goal with |- context [store_image _ _ ?c _ _ ?hs ?ws ?s1] =>
      destruct (store_image_run (normal k) (storeNormal k) (normal_value k)
                  c hDst wDst hs ws s1 (storeNormal_set3 k)) as (m3 & -> & H3) end.
    match goal with |- context [storeZero_loop ?n ?c ?h ?w ?s1] =>
      destruct (storeZero_loop_run n c h w s1) as (m4 & -> & H4) end.
    exists m4. cbn [reads mem] in *. split; [by rewrite !app_assoc|].
    intros c' h' w'. rewrite H4, H3, H2, H1.
    cell_cases.
  - match goal with |- context [storeZero_loop ?n ?c ?h ?w ?s1] =>
      destruct (storeZero_loop_run n c h w s1) as (m4 & -> & H4) end.
    exists m4. split; [done|]. intros c' h' w'. rewrite H4. cell_cases.
Qed.

Lemma pixel_cell_idem k hDst wDst c' before :
  pixel_cell k hDst wDst c' (pixel_cell k hDst wDst c' before)
  = pixel_cell k hDst wDst c' before.
Proof.
  unfold pixel_cell, image_cell. destruct (in_tile k hDst wDst); cbn.
  - destruct (ptr (color k)), (ptr (albedo k)), (ptr (normal k)); cell_cases.
  - cell_cases.
Qed.

(** ** What a schedule of work-items writes and reads *)

Lemma run_items_run k items s :
  ∃ m, run_items k items s
       = (tt, {| mem := m; reads := items_reads k items ++ reads s |}) ∧
    ∀ c h w, m !! (c, h, w) =
      if decide ((h, w) ∈ items)
      then pixel_cell k h w c (mem s !! (c, h, w))
      else mem s !! (c, h, w).
Proof.
  revert s. induction items as [|[h0 w0] rest IH]; intros s.
  - exists (mem s). split; [by destruct s|].
    intros. case_decide as Hin; [by apply not_elem_of_nil in Hin | done].
  - cbn [run_items items_reads]. unfold kbind.
    destruct (call_run k h0 w0 s) as (m1 & -> & H1).
    destruct (IH {| mem := m1; reads := call_reads k h0 w0 ++ reads s |})
      as (m2 & -> & H2).
    exists m2. cbn [mem reads] in *. split; [by rewrite app_assoc|].
    intros c h w. rewrite H2, H1.
    destruct (decide ((h, w) ∈ rest)) as [Hr|Hr].
    + rewrite (decide_True (P := (h, w) ∈ (h0, w0) :: rest)) by (by right).
      case_decide as Heq; [|done].
      destruct Heq as [-> ->]. apply pixel_cell_idem.
    + destruct (decide (h = h0 ∧ w = w0)) as [[-> ->]|Hne].
      * by rewrite (decide_True (P := (h0, w0) ∈ (h0, w0) :: rest)) by (by left).
      * rewrite (decide_False (P := (h, w) ∈ (h0, w0) :: rest)); [done|].
        intros [Heq|Hin]%elem_of_cons; [|done]. simplify_eq. by apply Hne.
Qed.

Lemma elem_of_range2 h w H W :
  (h, w) ∈ range2 H W ↔ 0 <= h < H ∧ 0 <= w < W.
Proof.
  unfold range2. rewrite list_elem_of_bind. split.
  - intros (h' & Hw & Hh). apply list_elem_of_fmap in Hw as (w' & Heq & Hw).
    simplify_eq. apply elem_of_seqZ in Hh, Hw. lia.
  - intros [Hh Hw]. exists h. split.
    + apply list_elem_of_fmap. exists w. split; [done|]. apply elem_of_seqZ. lia.
    + apply elem_of_seqZ. lia.
Qed.

(** After the dispatch every cell of a pixel of the index space holds what
    the work-item of that pixel leaves there. *)
Lemma parallel_for_lookup k s c hDst wDst :
  0 <= hDst < H (dst k) -> 0 <= wDst < W (dst k) ->
  mem (snd (parallel_for k s)) !! (c, hDst, wDst)
  = pixel_cell k hDst wDst c (mem s !! (c, hDst, wDst)).
Proof.
  intros Hh Hw. unfold parallel_for.
  destruct (run_items_run k (range2 (H (dst k)) (W (dst k))) s) as (m & -> & Hm).
  cbn [snd mem]. rewrite Hm.
  rewrite decide_True; [done|]. by apply elem_of_range2.
Qed.

(** The tensor does not depend on the order of the work-items. *)
Lemma run_items_mem_perm k items1 items2 s :
  items1 ≡ₚ items2 ->
  mem (snd (run_items k items1 s)) = mem (snd (run_items k items2 s)).
Proof.
  intros Hp.
  destruct (run_items_run k items1 s) as (m1 & -> & H1).
  destruct (run_items_run k items2 s) as (m2 & -> & H2).
  cbn [snd mem]. apply map_eq. intros [[c h] w]. rewrite H1, H2.
  destruct (decide ((h, w) ∈ items1)) as [Hin|Hin].
  - rewrite decide_True; [done|]. by rewrite <- Hp.
  - rewrite decide_False; [done|]. by rewrite <- Hp.
Qed.

(** ** The claims about the kernel *)

Lemma result_in_tile k s c hDst wDst :
  0 <= hDst < H (dst k) -> 0 <= wDst < W (dst k) ->
  in_tile k hDst wDst = true ->
  result k s !! (c, hDst, wDst)
  = let '(hSrc, wSrc) := src_coord k hDst wDst in
    let c1 := next_channel (color k) 0 in
    let c2 := next_channel (albedo k) c1 in
    let c3 := next_channel (normal k) c2 in
    if decide (c3 <= c < C (dst k)) then Some F16.zero
    else image_cell (normal k) (normal_value k) c2 hSrc wSrc c
           (image_cell (albedo k) (albedo_value k) c1 hSrc wSrc c
              (image_cell (color k) (color_value k) 0 hSrc wSrc c
                 (mem s !! (c, hDst, wDst)))).
Proof.
  intros Hh Hw Hin. unfold result. rewrite parallel_for_lookup by done.
  unfold pixel_cell. by rewrite Hin.
Qed.

Lemma result_out_of_tile k s c hDst wDst :
  0 <= hDst < H (dst k) -> 0 <= wDst < W (dst k) ->
  in_tile k hDst wDst = false ->
  result k s !! (c, hDst, wDst)
  = if decide (0 <= c < C (dst k)) then Some F16.zero
    else mem s !! (c, hDst, wDst).
Proof.
  intros Hh Hw Hin. unfold result. rewrite parallel_for_lookup by done.
  unfold pixel_cell. by rewrite Hin.
Qed.

Ltac image_cases :=
  unfold src_coord, image_cell, next_channel, has_ptr;
  repeat match goal with H : ptr _ = _ |- _ => rewrite H end;
  repeat match goal with |- context [ptr ?i] => destruct (ptr i) end;
  cbn; cell_cases.

(** C1 (as amended).  For a pixel of the index space that lies inside the
    tile, with a color image present, channels 0, 1 and 2 hold the source
    pixel after, in this order: the multiplication by the input scale of the
    transfer function, the replacement of NaN by 0, the clamp to the lower
    bound [snorm ? -1 : 0] and the upper bound [hdr ? FLT_MAX : 1] (the
    largest finite float, not infinity), the map [v * 0.5 + 0.5] when
    [snorm], and the forward transfer function. *)
Theorem color_channels k s hDst wDst px :
  0 <= hDst < H (dst k) -> 0 <= wDst < W (dst k) ->
  in_tile k hDst wDst = true ->
  ptr (color k) = Some px ->
  let src := px (hDst - hDstBegin (tile k) + hSrcBegin (tile k))
                (wDst - wDstBegin (tile k) + wSrcBegin (tile k)) in
  let scaled := vmul src (getInputScale (transferFunc k)) in
  let sane := vnan_to_zero scaled in
  let clamped := vclamp sane (if snorm k then F32.neg_one else F32.zero)
                             (if hdr k then F32.max_float else F32.one) in
  let mapped := if snorm k then vadd (vmul clamped F32.half) F32.half else clamped in
  let out := forward (transferFunc k) mapped in
  result k s !! (0, hDst, wDst) = Some (F16.of_float (vx out)) ∧
  result k s !! (1, hDst, wDst) = Some (F16.of_float (vy out)) ∧
  result k s !! (2, hDst, wDst) = Some (F16.of_float (vz out)).
Proof.
  intros Hh Hw Hin Hc. cbv zeta.
  rewrite !result_in_tile by done.
  repeat split; image_cases.
Qed.

(** C2.  A pixel [(hDst, wDst)] of the index space whose tile coordinates
    [(hDst - hDstBegin, wDst - wDstBegin)] fall outside [[0,H) x [0,W)]
    holds 0 in all [C] channels; said with destination coordinates, every
    pixel outside [[hDstBegin, hDstBegin+H) x [wDstBegin, wDstBegin+W)] is
    zero in all [C] channels, whatever the tile. *)
Theorem zero_padding k s :
  (∀ hDst wDst c,
     0 <= hDst < H (dst k) -> 0 <= wDst < W (dst k) ->
     let h := hDst - hDstBegin (tile k) in
     let w := wDst - wDstBegin (tile k) in
     ¬ (0 <= h < tileH (tile k) ∧ 0 <= w < tileW (tile k)) ->
     0 <= c < C (dst k) ->
     result k s !! (c, hDst, wDst) = Some F16.zero) ∧
  (∀ hDst wDst c,
     0 <= hDst < H (dst k) -> 0 <= wDst < W (dst k) ->
     ¬ (hDstBegin (tile k) <= hDst < hDstBegin (tile k) + tileH (tile k) ∧
        wDstBegin (tile k) <= wDst < wDstBegin (tile k) + tileW (tile k)) ->
     0 <= c < C (dst k) ->
     result k s !! (c, hDst, wDst) = Some F16.zero).
Proof.
  assert (Hout : ∀ hDst wDst,
            ¬ (0 <= hDst - hDstBegin (tile k) < tileH (tile k) ∧
               0 <= wDst - wDstBegin (tile k) < tileW (tile k)) ->
            in_tile k hDst wDst = false).
  { intros hDst wDst Hn. unfold in_tile. apply not_true_is_false. intros Ht.
    apply Hn. repeat (apply andb_prop in Ht as [Ht ?]). lia. }
  split; intros hDst wDst c Hh Hw; cbv zeta; intros Hn Hc.
  - rewrite result_out_of_tile by auto. by rewrite decide_True.
  - rewrite result_out_of_tile; [by rewrite decide_True|done|done|].
    apply Hout. lia.
Qed.

(** C3.  Inside the tile: with color, albedo and normal present and
    [C = 9], channels [[0..3)] hold the transformed color, [[3..6)] the
    transformed albedo and [[6..9)] the transformed normal; with only color
    and [C = 9], channels [[3..9)] hold 0; in general every channel below
    [C] that follows the channels of the present images holds 0. *)
Theorem channel_ordering k s hDst wDst :
  0 <= hDst < H (dst k) -> 0 <= wDst < W (dst k) ->
  in_tile k hDst wDst = true ->
  let hSrc := hDst - hDstBegin (tile k) + hSrcBegin (tile k) in
  let wSrc := wDst - wDstBegin (tile k) + wSrcBegin (tile k) in
  let cell c := result k s !! (c, hDst, wDst) in
  let half3 (v : vec3f) :=
    (Some (F16.of_float (vx v)), Some (F16.of_float (vy v)), Some (F16.of_float (vz v))) in
  (∀ pc pa pn,
     ptr (color k) = Some pc -> ptr (albedo k) = Some pa -> ptr (normal k) = Some pn ->
     C (dst k) = 9 ->
     (cell 0, cell 1, cell 2) = half3 (color_value k (pc hSrc wSrc)) ∧
     (cell 3, cell 4, cell 5) = half3 (albedo_value k (pa hSrc wSrc)) ∧
     (cell 6, cell 7, cell 8) = half3 (normal_value k (pn hSrc wSrc))) ∧
  (∀ pc,
     ptr (color k) = Some pc -> ptr (albedo k) = None -> ptr (normal k) = None ->
     C (dst k) = 9 ->
     ∀ c, 3 <= c < 9 -> cell c = Some F16.zero) ∧
  (∀ c,
     (if has_ptr (color k) then 3 else 0) + (if has_ptr (albedo k) then 3 else 0)
       + (if has_ptr (normal k) then 3 else 0) <= c < C (dst k) ->
     cell c = Some F16.zero).
Proof.
  intros Hh Hw Hin. cbv zeta. split; [|split].
  - intros pc pa pn Hc Ha Hn HC. rewrite !result_in_tile by done.
    repeat split; repeat f_equal; image_cases.
  - intros pc Hc Ha Hn HC c Hr. rewrite result_in_tile by done. image_cases.
  - intros c Hr. rewrite result_in_tile by done.
    unfold has_ptr in Hr. image_cases.
Qed.

(** C4.  Inside the tile, with an albedo image present, the three albedo
    channels (which start at 3 after a color image and at 0 otherwise) hold:
    with a color image, the source pixel after the replacement of NaN by 0
    and the clamp to [[0,1]], with neither the input scale nor the forward
    transfer function; without a color image, the source pixel after the
    input scale, the replacement of NaN by 0, the clamp to [[0,1]] and the
    forward transfer function. *)
Theorem albedo_channels k s hDst wDst pa :
  0 <= hDst < H (dst k) -> 0 <= wDst < W (dst k) ->
  in_tile k hDst wDst = true ->
  ptr (albedo k) = Some pa ->
  let src := pa (hDst - hDstBegin (tile k) + hSrcBegin (tile k))
                (wDst - wDstBegin (tile k) + wSrcBegin (tile k)) in
  let cells3 c (out : vec3f) :=
    result k s !! (c, hDst, wDst) = Some (F16.of_float (vx out)) ∧
    result k s !! (c + 1, hDst, wDst) = Some (F16.of_float (vy out)) ∧
    result k s !! (c + 2, hDst, wDst) = Some (F16.of_float (vz out)) in
  (has_ptr (color k) = true ->
     cells3 3 (vclamp (vnan_to_zero src) F32.zero F32.one)) ∧
  (has_ptr (color k) = false ->
     cells3 0 (forward (transferFunc k)
                 (vclamp (vnan_to_zero (vmul src (getInputScale (transferFunc k))))
                    F32.zero F32.one))).
Proof.
  intros Hh Hw Hin Ha. cbv zeta.
  split; intros Hc; rewrite !result_in_tile by done;
    unfold albedo_value; rewrite Hc; unfold has_ptr in Hc;
    repeat split; image_cases.
Qed.

(** C5.  Inside the tile, with a normal image present, the three normal
    channels (which follow the channels of the color and albedo images that
    are present) hold the source pixel after: the input scale only when no
    color image is present, the replacement of NaN by 0, the clamp to
    [[-1,1]] and the map [v * 0.5 + 0.5]; the forward transfer function
    takes no part. *)
Theorem normal_channels k s hDst wDst pn :
  0 <= hDst < H (dst k) -> 0 <= wDst < W (dst k) ->
  in_tile k hDst wDst = true ->
  ptr (normal k) = Some pn ->
  let src := pn (hDst - hDstBegin (tile k) + hSrcBegin (tile k))
                (wDst - wDstBegin (tile k) + wSrcBegin (tile k)) in
  let scaled := if has_ptr (color k) then src
                else vmul src (getInputScale (transferFunc k)) in
  let sane := vnan_to_zero scaled in
  let clamped := vclamp sane F32.neg_one F32.one in
  let out := vadd (vmul clamped F32.half) F32.half in
  let c := (if has_ptr (color k) then 3 else 0) + (if has_ptr (albedo k) then 3 else 0) in
  result k s !! (c, hDst, wDst) = Some (F16.of_float (vx out)) ∧
  result k s !! (c + 1, hDst, wDst) = Some (F16.of_float (vy out)) ∧
  result k s !! (c + 2, hDst, wDst) = Some (F16.of_float (vz out)).
Proof.
  intros Hh Hw Hin Hn. cbv zeta.
  rewrite !result_in_tile by done. unfold normal_value.
  destruct (has_ptr (color k)) eqn:Hc, (has_ptr (albedo k)) eqn:Ha;
    unfold has_ptr in Hc, Ha; repeat split; image_cases.
Qed.

(** *** NaN in the source *)

Lemma vcomp_map f v i : vcomp (vec3_map f v) i = f (vcomp v i).
Proof. unfold vcomp, vec3_map. cbn. by repeat case_match. Qed.

Lemma isnan_eq x : F32.isnan x = true -> x = F32.nan.
Proof. by destruct x. Qed.

Lemma mul_nan_l y : F32.mul F32.nan y = F32.nan.
Proof. by destruct y. Qed.

Lemma nan_to_zero_scaled x sc (scale : bool) :
  F32.isnan x = true ->
  F32.nan_to_zero (if scale then F32.mul x sc else x) = F32.zero.
Proof. intros ->%isnan_eq. destruct scale; [by rewrite mul_nan_l | done]. Qed.

Lemma sane_nan v sc (scale : bool) i :
  F32.isnan (vcomp v i) = true ->
  vcomp (vnan_to_zero (if scale then vmul v sc else v)) i = F32.zero.
Proof.
  intros Hnan. unfold vnan_to_zero. rewrite vcomp_map.
  destruct scale.
  - unfold vmul. rewrite vcomp_map. apply (nan_to_zero_scaled _ _ true Hnan).
  - apply (nan_to_zero_scaled _ F32.zero false Hnan).
Qed.

Lemma clamp_zero v lo hi i :
  vcomp v i = F32.zero ->
  F32.clamp F32.zero lo hi = F32.zero ->
  vcomp (vclamp v lo hi) i = F32.zero.
Proof. intros Hv Hc. unfold vclamp. by rewrite vcomp_map, Hv. Qed.

Lemma remap_zero v i :
  vcomp v i = F32.zero ->
  vcomp (vadd (vmul v F32.half) F32.half) i = F32.half.
Proof. intros Hv. unfold vadd, vmul. by rewrite !vcomp_map, Hv. Qed.

Lemma tone_curve_finite tf f v i z :
  tone_curve tf f -> vcomp v i = z -> z = F32.zero ∨ z = F32.half ->
  F16.is_finite (F16.of_float (vcomp (forward tf v) i)) = true.
Proof.
  intros (Hf & H0 & H5) Hv Hz. rewrite Hf, vcomp_map, Hv.
  by destruct Hz as [-> | ->].
Qed.

Lemma normal_value_nan k v i :
  F32.isnan (vcomp v i) = true ->
  vcomp (normal_value k v) i = F32.half.
Proof.
  intros Hnan. unfold normal_value.
  destruct (has_ptr (color k)); cbn [negb];
    unfold vadd, vclamp, vnan_to_zero, vmul; rewrite !vcomp_map.
  - by rewrite (nan_to_zero_scaled _ F32.zero false Hnan).
  - by rewrite (nan_to_zero_scaled _ _ true Hnan).
Qed.

(** C6.  Inside the tile, a NaN component of the source pixel of a present
    image is replaced by 0 before the clamp, the clamp leaves that 0, and
    the cell holds what the later steps make of it: for color the forward
    transfer function of a vector with 0 there (0.5 under [snorm]), for
    albedo that 0 (its forward transfer function when no color image is
    present), for normal 0.5.  The normal cell and the albedo cell beside a
    color image are finite; a cell that passes through the transfer
    function is finite for a transfer function that is a tone curve per
    component, finite at 0 and at 0.5. *)
Theorem nan_sanitized k s hDst wDst i :
  0 <= hDst < H (dst k) -> 0 <= wDst < W (dst k) ->
  in_tile k hDst wDst = true ->
  0 <= i < 3 ->
  let hSrc := hDst - hDstBegin (tile k) + hSrcBegin (tile k) in
  let wSrc := wDst - wDstBegin (tile k) + wSrcBegin (tile k) in
  let tf := transferFunc k in
  let ca := if has_ptr (color k) then 3 else 0 in
  let cn := ca + (if has_ptr (albedo k) then 3 else 0) in
  let cell c := result k s !! (c, hDst, wDst) in
  let finite_cell c := ∃ v, cell c = Some v ∧ F16.is_finite v = true in
  (∀ px, ptr (color k) = Some px ->
     F32.isnan (vcomp (px hSrc wSrc) i) = true ->
     let sane := vnan_to_zero (vmul (px hSrc wSrc) (getInputScale tf)) in
     let clamped := vclamp sane (if snorm k then F32.neg_one else F32.zero)
                                (if hdr k then F32.max_float else F32.one) in
     let mapped := if snorm k then vadd (vmul clamped F32.half) F32.half
                   else clamped in
     vcomp sane i = F32.zero ∧
     vcomp clamped i = F32.zero ∧
     vcomp mapped i = (if snorm k then F32.half else F32.zero) ∧
     cell i = Some (F16.of_float (vcomp (forward tf mapped) i)) ∧
     (∀ f, tone_curve tf f -> finite_cell i)) ∧
  (∀ px, ptr (albedo k) = Some px ->
     F32.isnan (vcomp (px hSrc wSrc) i) = true ->
     let sane := vnan_to_zero (if has_ptr (color k) then px hSrc wSrc
                               else vmul (px hSrc wSrc) (getInputScale tf)) in
     let clamped := vclamp sane F32.zero F32.one in
     vcomp sane i = F32.zero ∧
     vcomp clamped i = F32.zero ∧
     cell (ca + i)
       = Some (F16.of_float (vcomp (if has_ptr (color k) then clamped
                                    else forward tf clamped) i)) ∧
     (has_ptr (color k) = true -> finite_cell (ca + i)) ∧
     (∀ f, tone_curve tf f -> finite_cell (ca + i))) ∧
  (∀ px, ptr (normal k) = Some px ->
     F32.isnan (vcomp (px hSrc wSrc) i) = true ->
     let sane := vnan_to_zero (if has_ptr (color k) then px hSrc wSrc
                               else vmul (px hSrc wSrc) (getInputScale tf)) in
     let clamped := vclamp sane F32.neg_one F32.one in
     vcomp sane i = F32.zero ∧
     vcomp clamped i = F32.zero ∧
     cell (cn + i) = Some (F16.of_float F32.half) ∧
     finite_cell (cn + i)).
Proof.
  intros Hh Hw Hin Hi. cbv zeta.
  set (hSrc := hDst - hDstBegin (tile k) + hSrcBegin (tile k)).
  set (wSrc := wDst - wDstBegin (tile k) + wSrcBegin (tile k)).
  set (scale := getInputScale (transferFunc k)).
  split; [|split]; intros px Hp Hnan.
  - pose proof (sane_nan _ scale true i Hnan) as Hs. cbv iota in Hs.
    assert (Hc : vcomp (vclamp (vnan_to_zero (vmul (px hSrc wSrc) scale))
                   (if snorm k then F32.neg_one else F32.zero)
                   (if hdr k then F32.max_float else F32.one)) i = F32.zero)
      by (apply clamp_zero; [done | by destruct (snorm k), (hdr k)]).
    match goal with |- _ ∧ _ ∧ vcomp ?m i = _ ∧ _ =>
      assert (Hm : vcomp m i = if snorm k then F32.half else F32.zero)
        by (destruct (snorm k); [by apply remap_zero | done]) end.
    assert (Hcell : result k s !! (i, hDst, wDst)
              = Some (F16.of_float (vcomp (color_value k (px hSrc wSrc)) i))).
    { rewrite result_in_tile by done. image_cases. all: by rewrite Z.sub_0_r. }
    repeat split; try done.
    intros f Hf. eexists. split; [exact Hcell|].
    unfold color_value. eapply tone_curve_finite; [done | exact Hm |].
    destruct (snorm k); auto.
  - assert (Hs : vcomp (vnan_to_zero (if has_ptr (color k) then px hSrc wSrc
                                      else vmul (px hSrc wSrc) scale)) i = F32.zero).
    { pose proof (sane_nan _ scale (negb (has_ptr (color k))) i Hnan) as Hs.
      by destruct (has_ptr (color k)). }
    pose proof (clamp_zero _ F32.zero F32.one i Hs eq_refl) as Hc.
    assert (Hcell : result k s !! ((if has_ptr (color k) then 3 else 0) + i, hDst, wDst)
              = Some (F16.of_float (vcomp (albedo_value k (px hSrc wSrc)) i))).
    { rewrite result_in_tile by done. image_cases. all: repeat f_equal; lia. }
    assert (Hval : albedo_value k (px hSrc wSrc)
              = if has_ptr (color k)
                then vclamp (vnan_to_zero (px hSrc wSrc)) F32.zero F32.one
                else forward (transferFunc k)
                       (vclamp (vnan_to_zero (vmul (px hSrc wSrc) scale))
                          F32.zero F32.one))
      by (unfold albedo_value; by destruct (has_ptr (color k))).
    rewrite Hval in Hcell. clear Hval.
    repeat split; try done.
    + rewrite Hcell. by destruct (has_ptr (color k)).
    + intros Hcol. eexists. split; [exact Hcell|].
      rewrite Hcol in *. by rewrite Hc.
    + intros f Hf. eexists. split; [exact Hcell|].
      destruct (has_ptr (color k)); [by rewrite Hc|].
      eapply tone_curve_finite; [done | exact Hc | auto].
  - assert (Hs : vcomp (vnan_to_zero (if has_ptr (color k) then px hSrc wSrc
                                      else vmul (px hSrc wSrc) scale)) i = F32.zero).
    { pose proof (sane_nan _ scale (negb (has_ptr (color k))) i Hnan) as Hs.
      by destruct (has_ptr (color k)). }
    pose proof (clamp_zero _ F32.neg_one F32.one i Hs eq_refl) as Hc.
    assert (Hcell : result k s !! ((if has_ptr (color k) then 3 else 0)
                                   + (if has_ptr (albedo k) then 3 else 0) + i, hDst, wDst)
              = Some (F16.of_float F32.half)).
    { rewrite <- (normal_value_nan k _ i Hnan).
      rewrite result_in_tile by done. image_cases. all: repeat f_equal; lia. }
    repeat split; try done. by eexists.
Qed.

(** ** The claims about the node *)

Lemma setSrc_Some cimg aimg nimg n n' :
  Node.setSrc cimg aimg nimg n = Some n' ->
  Node.channels cimg + Node.channels aimg + Node.channels nimg
    <= Tensor.dims0 (Node.dst n) ∧
  Node.dst n' = Node.dst n ∧ Node.tile n' = Node.tile n ∧
  Node.color n' = cimg ∧ Node.albedo n' = aimg ∧ Node.normal n' = nimg.
Proof.
  unfold Node.setSrc. case_match eqn:Hle; [|done].
  intros [= <-]. cbn. apply Z.leb_le in Hle. done.
Qed.

(** [setSrc] succeeds exactly when the channel count [C] of the destination
    is at least the sum of the channel counts of the images that are
    present.  That alone bounds the writes of a work-item only when every
    present image has at least 3 channels, the number that the kernel
    stores for it: then no channel outside [[0, C)] is written. *)
Lemma setSrc_channel_bound n cimg aimg nimg :
  (is_Some (Node.setSrc cimg aimg nimg n) ↔
   Node.channels cimg + Node.channels aimg + Node.channels nimg
     <= Tensor.dims0 (Node.dst n)) ∧
  (∀ n', Node.setSrc cimg aimg nimg n = Some n' ->
     at_least_3 cimg -> at_least_3 aimg -> at_least_3 nimg ->
     writes_within_C (Node.kernel n')).
Proof.
  split.
  - unfold Node.setSrc. destruct (Z.leb_spec
      (Node.channels cimg + Node.channels aimg + Node.channels nimg)
      (Tensor.dims0 (Node.dst n))) as [Hle|Hgt].
    + split; [done | by eexists].
    + split; [by intros [? [=]] | lia].
  - intros n' Hset Hc Ha Hn s hDst wDst c h w Hout.
    apply setSrc_Some in Hset as (Hsum & Hd & _ & Hc' & Ha' & Hn').
    destruct (call_run (Node.kernel n') hDst wDst s) as (m & -> & Hm).
    cbn [snd mem]. rewrite Hm. case_decide as Hpix; [|done].
    unfold pixel_cell, src_coord, image_cell, next_channel, has_ptr.
    cbn [Node.kernel Image.accessor Tensor.accessor color albedo normal dst C ptr] in *.
    rewrite Hc', Ha', Hn', Hd in *.
    destruct cimg, aimg, nimg; cbn in *; repeat case_match; cell_cases.
Qed.

Lemma elem_of_image_reads img hSrc wSrc hw :
  hw ∈ image_reads img hSrc wSrc -> hw = (hSrc, wSrc).
Proof.
  unfold image_reads. case_match.
  - by intros ?%list_elem_of_singleton.
  - by intros ?%elem_of_nil.
Qed.

Lemma elem_of_call_reads k hDst wDst hw :
  hw ∈ call_reads k hDst wDst ->
  in_tile k hDst wDst = true ∧ hw = src_coord k hDst wDst.
Proof.
  unfold call_reads. destruct (in_tile k hDst wDst); [|by intros ?%elem_of_nil].
  destruct (src_coord k hDst wDst) as [hSrc wSrc].
  rewrite !elem_of_app. intros [Hr|[Hr|Hr]];
    apply elem_of_image_reads in Hr; done.
Qed.

Lemma elem_of_items_reads k items hw :
  hw ∈ items_reads k items ->
  ∃ hDst wDst, (hDst, wDst) ∈ items ∧ in_tile k hDst wDst = true
               ∧ hw = src_coord k hDst wDst.
Proof.
  induction items as [|[h0 w0] rest IH]; cbn [items_reads].
  - by intros ?%elem_of_nil.
  - rewrite elem_of_app. intros [Hin|Hin].
    + destruct (IH Hin) as (hDst & wDst & Hi & Ht & Heq).
      exists hDst, wDst. split; [by right | done].
    + apply elem_of_call_reads in Hin as [Ht Heq].
      exists h0, w0. split; [by left | done].
Qed.

Lemma in_tile_spec k hDst wDst :
  in_tile k hDst wDst = true ↔
  0 <= hDst - hDstBegin (tile k) < tileH (tile k) ∧
  0 <= wDst - wDstBegin (tile k) < tileW (tile k).
Proof. unfold in_tile. rewrite !andb_true_iff. lia. Qed.

Section NodeClaims.

Variable getInput : Node.t -> option Image.t.
Variable InputReorder_kernel : InputReorder -> Z -> Kernel unit.

(** C8.  [execute] and [executeKernel] dispatch the kernel only after the
    four assertions: [tile.H + hSrcBegin <= height] and
    [tile.W + wSrcBegin <= width] of the input image,
    [tile.H + hDstBegin <= height] and [tile.W + wDstBegin <= width] of the
    destination.  Under them the dispatch takes place, and every source
    coordinate [(h + hSrcBegin, w + wSrcBegin)] that an in-tile work-item
    reads is below the height and the width of the input image. *)
Theorem tile_bounds_guard n s :
  let asserted input :=
    tileH (Node.tile n) + hSrcBegin (Node.tile n) <= Image.height input ∧
    tileW (Node.tile n) + wSrcBegin (Node.tile n) <= Image.width input ∧
    tileH (Node.tile n) + hDstBegin (Node.tile n) <= Tensor.height (Node.dst n) ∧
    tileW (Node.tile n) + wDstBegin (Node.tile n) <= Tensor.width (Node.dst n) in
  (∀ s', Node.execute getInput InputReorder_kernel n s = Some s' ->
     ∃ input, getInput n = Some input ∧ asserted input) ∧
  (∀ s', Node.executeKernel getInput n s = Some s' ->
     ∃ input, getInput n = Some input ∧ asserted input) ∧
  (∀ input, getInput n = Some input -> asserted input ->
     ∃ s' new, Node.executeKernel getInput n s = Some s' ∧
       reads s' = new ++ reads s ∧
       ∀ hSrc wSrc, (hSrc, wSrc) ∈ new ->
         hSrc < Image.height input ∧ wSrc < Image.width input).
Proof.
  cbv zeta. unfold Node.execute, Node.executeKernel, Node.tile_in_bounds.
  split; [|split].
  - intros s'. destruct (getInput n) as [input|]; [|done]. cbn.
    case_match eqn:Hb; [|done]. intros _. exists input.
    rewrite !andb_true_iff, !Z.leb_le in Hb. by destruct Hb as [[[? ?] ?] ?].
  - intros s'. destruct (getInput n) as [input|]; [|done]. cbn.
    case_match eqn:Hb; [|done]. intros _. exists input.
    rewrite !andb_true_iff, !Z.leb_le in Hb. by destruct Hb as [[[? ?] ?] ?].
  - intros input -> (H1 & H2 & H3 & H4). cbn.
    rewrite (proj2 (Z.leb_le _ _) H1), (proj2 (Z.leb_le _ _) H2),
      (proj2 (Z.leb_le _ _) H3), (proj2 (Z.leb_le _ _) H4). cbn.
    unfold parallel_for.
    destruct (run_items_run (Node.kernel n)
                (range2 (H (dst (Node.kernel n))) (W (dst (Node.kernel n)))) s)
      as (m & -> & _).
    eexists _, _. split; [done|]. split; [done|].
    intros hSrc wSrc (hDst & wDst & _ & Ht & Heq)%elem_of_items_reads.
    apply in_tile_spec in Ht. unfold src_coord in Heq.
    cbn [Node.kernel tile] in *. simplify_eq. lia.
Qed.

Lemma fresh_from_same n0 n :
  fresh_from n0 n -> Node.tile n = Node.tile n0 ∧ Node.dst n = Node.dst n0.
Proof.
  induction 1 as [|n cimg aimg nimg n' _ [IHt IHd] Hset]; [done|].
  apply setSrc_Some in Hset as (_ & Hd & Ht & _). by rewrite Ht, Hd.
Qed.

(** C9.  A node that has just been constructed has the all-zero tile.
    Executing it before any [setTile] -- with an input image and a
    destination of non-negative extent -- passes the assertions and leaves
    0 in every channel of every pixel of the destination, since no pixel
    is inside a tile with [H = W = 0]. *)
Theorem fresh_node_zero_fills blockSize d tf hdr snorm tile0 n0 :
  Node.make blockSize d tf hdr snorm tile0 = Some n0 ->
  Node.tile n0 = zero_tile ∧
  (∀ n input s,
     fresh_from n0 n ->
     getInput n = Some input ->
     0 <= Image.height input -> 0 <= Image.width input ->
     0 <= Tensor.height d -> 0 <= Tensor.width d ->
     ∃ s', Node.executeKernel getInput n s = Some s' ∧
       ∀ c h w,
         0 <= c < Tensor.dims0 d ->
         0 <= h < Tensor.height d -> 0 <= w < Tensor.width d ->
         mem s' !! (c, h, w) = Some F16.zero).
Proof.
  unfold Node.make. case_match; [|done]. intros [= <-].
  split; [done|].
  intros n input s Hfresh Hin Hih Hiw Hdh Hdw.
  apply fresh_from_same in Hfresh as [Ht Hd]. cbn in Ht, Hd.
  assert (Hb : Node.tile_in_bounds (Node.tile n) input (Node.dst n) = true).
  { unfold Node.tile_in_bounds. rewrite Ht, Hd.
    cbn [tileH tileW hSrcBegin wSrcBegin hDstBegin wDstBegin].
    rewrite !andb_true_iff, !Z.leb_le. lia. }
  unfold Node.executeKernel. rewrite Hin. cbn [mbind option_bind]. rewrite Hb.
  eexists. split; [done|]. intros c h w Hc Hh Hw.
  fold (result (Node.kernel n) s).
  assert (Hk : dst (Node.kernel n) = Tensor.accessor d)
    by (cbn; by rewrite Hd).
  rewrite result_out_of_tile.
  - rewrite Hk. cbn. by rewrite decide_True.
  - by rewrite Hk.
  - by rewrite Hk.
  - apply not_true_is_false. rewrite in_tile_spec.
    cbn [Node.kernel tile]. rewrite Ht. cbn. lia.
Qed.

End NodeClaims.

(** ** Determinism *)

Lemma same_pixel_has_ptr a b hw : same_pixel a b hw -> has_ptr a = has_ptr b.
Proof. unfold same_pixel, has_ptr. by destruct (ptr a), (ptr b). Qed.

(** C10.  The tensor is a function of the inputs alone, pixel by pixel: for
    two kernels with the same destination extent, tile, flags and transfer
    function, whose present images agree at the single source pixel
    [(hDst - hDstBegin + hSrcBegin, wDst - wDstBegin + wSrcBegin)], every
    channel of the destination pixel [(hDst, wDst)] holds the same value
    after the dispatch -- whatever the two source images hold elsewhere,
    whatever the order of the work-items, and whatever the tensor held
    before. *)
Theorem pointwise_deterministic k1 k2 items1 items2 s1 s2 hDst wDst c :
  dst k1 = dst k2 -> tile k1 = tile k2 ->
  transferFunc k1 = transferFunc k2 -> hdr k1 = hdr k2 -> snorm k1 = snorm k2 ->
  same_pixel (color k1) (color k2) (src_coord k1 hDst wDst) ->
  same_pixel (albedo k1) (albedo k2) (src_coord k1 hDst wDst) ->
  same_pixel (normal k1) (normal k2) (src_coord k1 hDst wDst) ->
  items1 ≡ₚ range2 (H (dst k1)) (W (dst k1)) ->
  items2 ≡ₚ range2 (H (dst k1)) (W (dst k1)) ->
  0 <= hDst < H (dst k1) -> 0 <= wDst < W (dst k1) ->
  0 <= c < C (dst k1) ->
  mem (snd (run_items k1 items1 s1)) !! (c, hDst, wDst)
  = mem (snd (run_items k2 items2 s2)) !! (c, hDst, wDst).
Proof.
  intros Hd Ht Htf Hhdr Hsn Hc Ha Hn Hp1 Hp2 Hh Hw HC.
  rewrite (run_items_mem_perm k1 _ _ s1 Hp1), (run_items_mem_perm k2 _ _ s2 Hp2).
  replace (range2 (H (dst k1)) (W (dst k1)))
    with (range2 (H (dst k2)) (W (dst k2))) at 2 by (by rewrite Hd).
  fold (parallel_for k1) (parallel_for k2).
  rewrite !parallel_for_lookup by (by rewrite <- ?Hd).
  unfold pixel_cell, in_tile, src_coord in *. rewrite <- Ht, <- Hd.
  case_match.
  - unfold next_channel.
    rewrite <- (same_pixel_has_ptr _ _ _ Hc), <- (same_pixel_has_ptr _ _ _ Ha),
      <- (same_pixel_has_ptr _ _ _ Hn).
    case_decide; [done|].
    assert (Hcv : ∀ v, color_value k1 v = color_value k2 v)
      by (intros; unfold color_value; by rewrite Htf, Hhdr, Hsn).
    assert (Hav : ∀ v, albedo_value k1 v = albedo_value k2 v)
      by (intros; unfold albedo_value;
          by rewrite Htf, (same_pixel_has_ptr _ _ _ Hc)).
    assert (Hnv : ∀ v, normal_value k1 v = normal_value k2 v)
      by (intros; unfold normal_value;
          by rewrite Htf, (same_pixel_has_ptr _ _ _ Hc)).
    unfold image_cell, same_pixel, has_ptr in *. cbn [fst snd] in *.
    destruct (ptr (color k1)), (ptr (color k2)), (ptr (albedo k1)), (ptr (albedo k2)),
      (ptr (normal k1)), (ptr (normal k2)); try done;
      rewrite ?Hcv, ?Hav, ?Hnv, ?Hc, ?Ha, ?Hn; cell_cases.
  - by rewrite !decide_True by done.
Qed.

(** The in-tile pixel (1,1) of [kernel9] reads source pixel (0,0): the NaN
    of the color becomes 0, 0.25 stays and 2 is clamped to 1. *)
Example kernel9_color_cells :
  result Sample.kernel9 empty_state !! (0, 1, 1) = Some (S754_zero false) ∧
  result Sample.kernel9 empty_state !! (1, 1, 1) = Some (S754_finite false 1024 (-12)) ∧
  result Sample.kernel9 empty_state !! (2, 1, 1) = Some (S754_finite false 1024 (-10)).
Proof. vm_compute. done. Qed.

(** The border pixel (0,3) is padding; pixel (3,3) too. *)
Example kernel9_border_cells :
  result Sample.kernel9 empty_state !! (4, 0, 3) = Some (S754_zero false) ∧
  result Sample.kernel9 empty_state !! (8, 3, 3) = Some (S754_zero false) ∧
  result Sample.kernel9 empty_state !! (9, 3, 3) = None.
Proof. vm_compute. done. Qed.

(** Under [snorm] the color NaN ends at 0.5; 0.25 maps to 0.625. *)
Example kernel_color_only_cells :
  result Sample.kernel_color_only empty_state !! (0, 1, 1) = Some (S754_finite false 1024 (-11)) ∧
  result Sample.kernel_color_only empty_state !! (1, 1, 1) = Some (S754_finite false 1280 (-11)) ∧
  result Sample.kernel_color_only empty_state !! (5, 1, 1) = Some (S754_zero false).
Proof. vm_compute. done. Qed.

(** ** The claims at concrete inputs *)

Lemma color_channels_witness :
  let out := color_value Sample.kernel9 (Sample.color_px 0 0) in
  result Sample.kernel9 empty_state !! (0, 1, 1) = Some (F16.of_float (vx out)) ∧
  result Sample.kernel9 empty_state !! (1, 1, 1) = Some (F16.of_float (vy out)) ∧
  result Sample.kernel9 empty_state !! (2, 1, 1) = Some (F16.of_float (vz out)).
Proof.
  apply (color_channels Sample.kernel9 empty_state 1 1 Sample.color_px);
    [cbn; lia | cbn; lia | reflexivity | reflexivity].
Defined.

(** With [hdr], an infinite color component is clamped to [FLT_MAX], which
    the Reinhard curve sends to 1; clamped to infinity it would go to NaN. *)
Lemma color_channels_infinity_counterexample :
  let k := Sample.kernel_hdr in
  0 <= 0 < H (dst k) ∧ 0 <= 0 < W (dst k) ∧
  in_tile k 0 0 = true ∧
  ptr (color k) = Some Sample.inf_px ∧
  result k empty_state !! (0, 0, 0) = Some (F16.of_float F32.one) ∧
  F16.of_float (vx (spec_color_value (transferFunc k) (hdr k) (snorm k)
                      (Sample.inf_px 0 0))) = F32.nan ∧
  result k empty_state !! (0, 0, 0)
  ≠ Some (F16.of_float (vx (spec_color_value (transferFunc k) (hdr k) (snorm k)
                               (Sample.inf_px 0 0)))).
Proof.
  cbv zeta. repeat split; try (cbn; lia); try (vm_compute; reflexivity).
  vm_compute. discriminate.
Defined.

Lemma zero_padding_witness :
  result Sample.kernel9 empty_state !! (4, 0, 3) = Some F16.zero ∧
  result Sample.kernel9 empty_state !! (8, 3, 1) = Some F16.zero.
Proof.
  split.
  - apply (proj1 (zero_padding Sample.kernel9 empty_state) 0 3 4); cbn; lia.
  - apply (proj2 (zero_padding Sample.kernel9 empty_state) 3 1 8); cbn; lia.
Defined.

Lemma channel_ordering_witness :
  result Sample.kernel9 empty_state !! (3, 1, 1)
    = Some (F16.of_float (vx (albedo_value Sample.kernel9 (Sample.albedo_px 0 0)))) ∧
  result Sample.kernel_color_only empty_state !! (5, 1, 1) = Some F16.zero ∧
  result Sample.kernel_aux_only empty_state !! (6, 2, 2) = Some F16.zero.
Proof.
  split; [|split].
  - pose proof (proj1 (channel_ordering Sample.kernel9 empty_state 1 1
        ltac:(cbn; lia) ltac:(cbn; lia) eq_refl)
        Sample.color_px Sample.albedo_px Sample.normal_px
        eq_refl eq_refl eq_refl eq_refl) as (_ & Ha & _).
    exact (f_equal (fun t => t.1.1) Ha).
  - apply (proj1 (proj2 (channel_ordering Sample.kernel_color_only empty_state 1 1
        ltac:(cbn; lia) ltac:(cbn; lia) eq_refl))
        Sample.color_px eq_refl eq_refl eq_refl eq_refl 5). lia.
  - apply (proj2 (proj2 (channel_ordering Sample.kernel_aux_only empty_state 2 2
        ltac:(cbn; lia) ltac:(cbn; lia) eq_refl)) 6). cbn. lia.
Defined.

Lemma albedo_channels_witness :
  result Sample.kernel9 empty_state !! (3, 1, 1)
    = Some (F16.of_float (vx (vclamp (vnan_to_zero (Sample.albedo_px 0 0)) F32.zero F32.one))) ∧
  result Sample.kernel_aux_only empty_state !! (0, 1, 1)
    = Some (F16.of_float (vx (forward Sample.reinhard
              (vclamp (vnan_to_zero (vmul (Sample.albedo_px 0 0) F32.one))
                 F32.zero F32.one)))).
Proof.
  split.
  - apply (proj1 (albedo_channels Sample.kernel9 empty_state 1 1 Sample.albedo_px
        ltac:(cbn; lia) ltac:(cbn; lia) eq_refl eq_refl) eq_refl).
  - apply (proj2 (albedo_channels Sample.kernel_aux_only empty_state 1 1 Sample.albedo_px
        ltac:(cbn; lia) ltac:(cbn; lia) eq_refl eq_refl) eq_refl).
Defined.

Lemma normal_channels_witness :
  let out := vadd (vmul (vclamp (vnan_to_zero (Sample.normal_px 0 0))
                           F32.neg_one F32.one) F32.half) F32.half in
  result Sample.kernel9 empty_state !! (6, 1, 1) = Some (F16.of_float (vx out)) ∧
  result Sample.kernel9 empty_state !! (7, 1, 1) = Some (F16.of_float (vy out)) ∧
  result Sample.kernel9 empty_state !! (8, 1, 1) = Some (F16.of_float (vz out)).
Proof.
  apply (normal_channels Sample.kernel9 empty_state 1 1 Sample.normal_px);
    [cbn; lia | cbn; lia | reflexivity | reflexivity].
Defined.

Lemma nan_sanitized_witness :
  result Sample.kernel9 empty_state !! (0, 1, 1)
    = Some (F16.of_float (vcomp (forward Sample.linear
              (vclamp (vnan_to_zero (vmul (Sample.color_px 0 0) F32.one))
                 F32.zero F32.one)) 0)) ∧
  (∃ v, result Sample.kernel9 empty_state !! (3, 1, 1) = Some v
        ∧ F16.is_finite v = true) ∧
  result Sample.kernel9 empty_state !! (6, 1, 1) = Some (F16.of_float F32.half).
Proof.
  pose proof (nan_sanitized Sample.kernel9 empty_state 1 1 0
    ltac:(cbn; lia) ltac:(cbn; lia) eq_refl ltac:(lia)) as (Hc & Ha & Hn).
  split; [|split].
  - exact (proj1 (proj2 (proj2 (proj2 (Hc Sample.color_px eq_refl eq_refl))))).
  - exact (proj1 (proj2 (proj2 (proj2 (Ha Sample.albedo_px eq_refl eq_refl)))) eq_refl).
  - exact (proj1 (proj2 (proj2 (Hn Sample.normal_px eq_refl eq_refl)))).
Defined.

(** C7.  The assertion of [setSrc] does not bound the channels that the
    kernel writes.  A node on a one-channel 1 x 1 tensor, with the tile set
    to that one pixel, takes a one-channel color image: the constructor and
    the assertion of [setSrc] pass ([C = 1 >= 1]), [executeKernel] passes
    its four assertions, and the work-item of pixel (0,0) stores the three
    color channels, so that channels 1 and 2, past [C], are written. *)
Theorem setSrc_passes_store_overflows :
  let n := Node.setTile 0 0 0 0 1 1 (Sample.made Sample.tensor1) in
  ∃ n' s',
    Node.make 1 Sample.tensor1 Sample.linear false false Sample.some_tile
      = Some (Sample.made Sample.tensor1) ∧
    Node.setSrc (Some Sample.gray) None None n = Some n' ∧
    Node.channels (Some Sample.gray) + Node.channels None + Node.channels None
      <= Tensor.dims0 (Node.dst n) ∧
    C (dst (Node.kernel n')) = 1 ∧
    Node.executeKernel Sample.first_input n' empty_state = Some s' ∧
    mem s' !! (0, 0, 0) = Some (S754_zero false) ∧
    mem s' !! (1, 0, 0) = Some (S754_finite false 1024 (-12)) ∧
    mem s' !! (2, 0, 0) = Some (S754_finite false 1024 (-10)) ∧
    ¬ writes_within_C (Node.kernel n').
Proof.
  cbv zeta. eexists _, _. split; [reflexivity|]. split; [reflexivity|].
  split; [cbn; lia|]. split; [reflexivity|]. split; [reflexivity|].
  split; [by vm_compute|]. split; [by vm_compute|]. split; [by vm_compute|].
  intros Hw. specialize (Hw empty_state 0 0 2 0 0 ltac:(cbn; lia)).
  vm_compute in Hw. discriminate.
Qed.

(** The three-channel image on the nine-channel tensor, with the 2 x 2
    tile: the assertion passes and the work-items stay within [C]. *)
Lemma setSrc_channel_bound_witness :
  let n := Node.setTile 0 0 1 1 2 2 (Sample.made Sample.tensor9) in
  let n' := Node.setTile 0 0 1 1 2 2 (Sample.with_rgb Sample.tensor9) in
  Node.setSrc (Some Sample.rgb) None None n = Some n' ∧
  in_tile (Node.kernel n') 1 1 = true ∧
  writes_within_C (Node.kernel n').
Proof.
  cbv zeta. split; [reflexivity|]. split; [reflexivity|].
  apply (proj2 (setSrc_channel_bound
                  (Node.setTile 0 0 1 1 2 2 (Sample.made Sample.tensor9))
                  (Some Sample.rgb) None None) _ eq_refl); cbn; (lia || exact I).
Defined.

Lemma tile_bounds_guard_witness :
  let n := Node.setTile 0 0 1 1 2 2 (Sample.with_rgb Sample.tensor9) in
  ∃ s' new, Node.executeKernel Sample.first_input n empty_state = Some s' ∧
    reads s' = new ++ reads empty_state ∧
    ∀ hSrc wSrc, (hSrc, wSrc) ∈ new ->
      hSrc < Image.height Sample.rgb ∧ wSrc < Image.width Sample.rgb.
Proof.
  apply (proj2 (proj2 (tile_bounds_guard Sample.first_input
                  (fun _ _ => kret tt)
                  (Node.setTile 0 0 1 1 2 2 (Sample.with_rgb Sample.tensor9))
                  empty_state)) Sample.rgb eq_refl).
  cbn. lia.
Defined.

(** The read log of that run: the four pixels of the tile, last first. *)
Example sample_read_log :
  reads <$> Node.executeKernel Sample.first_input
              (Node.setTile 0 0 1 1 2 2 (Sample.with_rgb Sample.tensor9)) empty_state
  = Some [(1, 1); (1, 0); (0, 1); (0, 0)].
Proof. vm_compute. reflexivity. Qed.

Lemma fresh_node_zero_fills_witness :
  Node.tile (Sample.made Sample.tensor9) = zero_tile ∧
  ∃ s', Node.executeKernel Sample.first_input (Sample.with_rgb Sample.tensor9)
          empty_state = Some s' ∧
    ∀ c h w, 0 <= c < 9 -> 0 <= h < 4 -> 0 <= w < 4 ->
      mem s' !! (c, h, w) = Some F16.zero.
Proof.
  destruct (fresh_node_zero_fills Sample.first_input 1 Sample.tensor9
              Sample.linear false false Sample.some_tile
              (Sample.made Sample.tensor9) eq_refl) as [Ht Hz].
  split; [exact Ht|].
  apply (Hz (Sample.with_rgb Sample.tensor9) Sample.rgb empty_state).
  - eapply (fresh_setSrc _ _ (Some Sample.rgb) None None);
      [apply fresh_made | reflexivity].
  - reflexivity.
  - cbn; lia.
  - cbn; lia.
  - cbn; lia.
  - cbn; lia.
Defined.

(** Two color images that agree at source pixel (0,0) only, two orders of
    the two work-items, two earlier contents of the tensor. *)
Lemma pointwise_deterministic_witness :
  let k1 := Build_InputReorder {| ptr := Some Sample.color_px |} {| ptr := None |}
              {| ptr := None |} {| C := 3; H := 1; W := 2 |}
              (Build_ReorderTile 0 0 0 0 1 1) Sample.linear false false in
  let k2 := Build_InputReorder
              {| ptr := Some (fun h w => if (h =? 0) && (w =? 0)
                                         then Sample.color_px 0 0
                                         else Sample.inf_px h w) |}
              {| ptr := None |}
              {| ptr := None |} {| C := 3; H := 1; W := 2 |}
              (Build_ReorderTile 0 0 0 0 1 1) Sample.linear false false in
  mem (snd (run_items k1 [(0, 0); (0, 1)] empty_state)) !! (1, 0, 0)
  = mem (snd (run_items k2 [(0, 1); (0, 0)]
                {| mem := {[ (1, 0, 0) := F32.nan ]}; reads := [] |})) !! (1, 0, 0).
Proof.
  cbv zeta.
  apply pointwise_deterministic;
    try reflexivity; try (cbn; lia); try exact I.
  apply perm_swap.
Defined.


(** * Further properties of the kernel and of the node *)

(** ** The cells and the source pixels that a dispatch touches *)

Lemma result_lookup k s c h w :
  result k s !! (c, h, w)
  = if decide (0 <= h < H (dst k) ∧ 0 <= w < W (dst k))
    then pixel_cell k h w c (mem s !! (c, h, w))
    else mem s !! (c, h, w).
Proof.
  unfold result, parallel_for.
  destruct (run_items_run k (range2 (H (dst k)) (W (dst k))) s) as (m & -> & Hm).
  cbn [snd mem]. rewrite Hm.
  destruct (decide ((h, w) ∈ range2 (H (dst k)) (W (dst k)))) as [Hin|Hin];
    rewrite elem_of_range2 in Hin.
  - by rewrite decide_True.
  - by rewrite decide_False.
Qed.

(** The dispatch writes every cell of the destination extent
    [C x H x W]; when the channels of the present images fit in [C], it
    writes nothing else: every other cell keeps its earlier content. *)
Theorem dispatch_write_set k s c h w :
  let inside := 0 <= c < C (dst k) ∧ 0 <= h < H (dst k) ∧ 0 <= w < W (dst k) in
  (inside -> is_Some (result k s !! (c, h, w))) ∧
  ((if has_ptr (color k) then 3 else 0) + (if has_ptr (albedo k) then 3 else 0)
     + (if has_ptr (normal k) then 3 else 0) <= C (dst k) ->
   ¬ inside -> result k s !! (c, h, w) = mem s !! (c, h, w)).
Proof.
  cbv zeta. split.
  - intros (Hc & Hh & Hw). rewrite result_lookup, decide_True by done.
    unfold pixel_cell, src_coord, image_cell, next_channel, has_ptr.
    destruct (in_tile k h w).
    + destruct (ptr (color k)), (ptr (albedo k)), (ptr (normal k));
        cbn; repeat case_decide; try done; exfalso; lia.
    + by rewrite decide_True.
  - intros Hfit Hout. rewrite result_lookup.
    case_decide as Hpix; [|done].
    unfold pixel_cell, src_coord, image_cell, next_channel, has_ptr in *.
    destruct (in_tile k h w).
    + destruct (ptr (color k)), (ptr (albedo k)), (ptr (normal k));
        cbn in *; repeat case_decide; try done; exfalso; lia.
    + case_decide; [exfalso; lia | done].
Qed.

(** Executing the dispatch again, on the tensor that it has produced,
    changes no cell. *)
Theorem dispatch_idempotent k s :
  result k (snd (parallel_for k s)) = result k s.
Proof.
  apply map_eq. intros [[c h] w]. rewrite result_lookup.
  fold (result k s). rewrite result_lookup.
  case_decide; [|done]. apply pixel_cell_idem.
Qed.

Lemma items_reads_perm k items1 items2 :
  items1 ≡ₚ items2 -> items_reads k items1 ≡ₚ items_reads k items2.
Proof.
  induction 1 as [|[h w] l1 l2 _ IH|[h1 w1] [h2 w2] l|l1 l2 l3 _ IH1 _ IH2];
    cbn [items_reads].
  - done.
  - by rewrite IH.
  - rewrite <- !app_assoc. f_equiv. apply Permutation_app_comm.
  - by etrans.
Qed.

(** The work-items may run in any order: two schedules with the same
    work-items leave the same tensor and read the same source pixels. *)
Theorem schedule_order_irrelevant k items1 items2 s :
  items1 ≡ₚ items2 ->
  mem (snd (run_items k items1 s)) = mem (snd (run_items k items2 s)) ∧
  reads (snd (run_items k items1 s)) ≡ₚ reads (snd (run_items k items2 s)).
Proof.
  intros Hp.
  destruct (run_items_run k items1 s) as (m1 & -> & H1).
  destruct (run_items_run k items2 s) as (m2 & -> & H2).
  cbn [snd mem reads]. split.
  - apply map_eq. intros [[c h] w]. rewrite H1, H2.
    destruct (decide ((h, w) ∈ items1)) as [Hin|Hin].
    + rewrite decide_True; [done|]. by rewrite <- Hp.
    + rewrite decide_False; [done|]. by rewrite <- Hp.
  - f_equiv. by apply items_reads_perm.
Qed.

Lemma call_reads_present k hDst wDst :
  in_tile k hDst wDst = true ->
  (has_ptr (color k) || has_ptr (albedo k) || has_ptr (normal k)) = true ->
  src_coord k hDst wDst ∈ call_reads k hDst wDst.
Proof.
  intros Ht Hp. unfold call_reads, image_reads. rewrite Ht.
  destruct (src_coord k hDst wDst) as [hSrc wSrc].
  rewrite !elem_of_app.
  destruct (has_ptr (color k)), (has_ptr (albedo k)), (has_ptr (normal k));
    try done; rewrite ?list_elem_of_singleton; auto.
Qed.

Lemma call_reads_absent k hDst wDst :
  (has_ptr (color k) || has_ptr (albedo k) || has_ptr (normal k)) = false ->
  call_reads k hDst wDst = [].
Proof.
  intros Hp. unfold call_reads, image_reads.
  destruct (in_tile k hDst wDst); [|done].
  destruct (src_coord k hDst wDst).
  by destruct (has_ptr (color k)), (has_ptr (albedo k)), (has_ptr (normal k)).
Qed.

Lemma elem_of_items_reads_iff k items hw :
  hw ∈ items_reads k items ↔
  (has_ptr (color k) || has_ptr (albedo k) || has_ptr (normal k)) = true ∧
  ∃ hDst wDst, (hDst, wDst) ∈ items ∧ in_tile k hDst wDst = true
               ∧ hw = src_coord k hDst wDst.
Proof.
  split.
  - intros Hin. split; [|by apply elem_of_items_reads].
    apply not_false_iff_true. intros Hp.
    induction items as [|[h0 w0] rest IH]; cbn [items_reads] in Hin.
    + by apply elem_of_nil in Hin.
    + rewrite call_reads_absent, app_nil_r in Hin by done. auto.
  - intros (Hp & hDst & wDst & Hin & Ht & ->).
    induction items as [|[h0 w0] rest IH]; [by apply elem_of_nil in Hin|].
    cbn [items_reads]. rewrite elem_of_app.
    apply elem_of_cons in Hin as [[= -> ->]|Hin].
    + right. by apply call_reads_present.
    + left. by apply IH.
Qed.

(** The source pixels that a dispatch reads are exactly the pixels
    [(h + hSrcBegin, w + wSrcBegin)] of the work-items inside the tile, as
    soon as one image is present; a padding work-item reads nothing.  All
    of them lie in the source rectangle
    [[hSrcBegin, hSrcBegin + H) x [wSrcBegin, wSrcBegin + W)] of the tile. *)
Theorem dispatch_reads k s :
  ∃ new, reads (snd (parallel_for k s)) = new ++ reads s ∧
    (∀ hSrc wSrc, (hSrc, wSrc) ∈ new ↔
       (has_ptr (color k) || has_ptr (albedo k) || has_ptr (normal k)) = true ∧
       ∃ hDst wDst,
         0 <= hDst < H (dst k) ∧ 0 <= wDst < W (dst k) ∧
         in_tile k hDst wDst = true ∧
         hSrc = hDst - hDstBegin (tile k) + hSrcBegin (tile k) ∧
         wSrc = wDst - wDstBegin (tile k) + wSrcBegin (tile k)) ∧
    (∀ hSrc wSrc, (hSrc, wSrc) ∈ new ->
       hSrcBegin (tile k) <= hSrc < hSrcBegin (tile k) + tileH (tile k) ∧
       wSrcBegin (tile k) <= wSrc < wSrcBegin (tile k) + tileW (tile k)).
Proof.
  unfold parallel_for.
  destruct (run_items_run k (range2 (H (dst k)) (W (dst k))) s) as (m & -> & _).
  eexists. split; [done|]. split.
  - intros hSrc wSrc. rewrite elem_of_items_reads_iff. unfold src_coord. split.
    + intros (Hp & hDst & wDst & Hin & Ht & [= -> ->]). split; [done|].
      apply elem_of_range2 in Hin as [? ?]. by exists hDst, wDst.
    + intros (Hp & hDst & wDst & Hh & Hw & Ht & -> & ->). split; [done|].
      exists hDst, wDst. split; [by apply elem_of_range2 | done].
  - intros hSrc wSrc (hDst & wDst & _ & Ht & Heq)%elem_of_items_reads.
    apply in_tile_spec in Ht. unfold src_coord in Heq. simplify_eq. lia.
Qed.

Section NodeExtras.

Variable getInput : Node.t -> option Image.t.

Lemma executeKernel_Some n s s' :
  Node.executeKernel getInput n s = Some s' ->
  s' = snd (parallel_for (Node.kernel n) s) ∧
  ∃ input, getInput n = Some input ∧
    Node.tile_in_bounds (Node.tile n) input (Node.dst n) = true.
Proof.
  unfold Node.executeKernel. destruct (getInput n) as [input|]; [|done]. cbn.
  case_match eqn:Hb; [|done]. intros [= <-]. split; [done|]. by exists input.
Qed.

(** No pixel of the tile is lost.  After a successful [executeKernel] of a
    node whose tile is placed at non-negative destination coordinates,
    every tile pixel [(h, w)] has been read at
    [(h + hSrcBegin, w + wSrcBegin)] from each present image, and its
    transformed color, albedo and normal are at destination pixel
    [(h + hDstBegin, w + wDstBegin)], in this channel order. *)
Theorem tile_pixels_land n s s' h w :
  Node.executeKernel getInput n s = Some s' ->
  0 <= hDstBegin (Node.tile n) -> 0 <= wDstBegin (Node.tile n) ->
  0 <= h < tileH (Node.tile n) -> 0 <= w < tileW (Node.tile n) ->
  let k := Node.kernel n in
  let hSrc := h + hSrcBegin (Node.tile n) in
  let wSrc := w + wSrcBegin (Node.tile n) in
  let cells3 c (v : vec3f) :=
    mem s' !! (c, h + hDstBegin (Node.tile n), w + wDstBegin (Node.tile n))
      = Some (F16.of_float (vx v)) ∧
    mem s' !! (c + 1, h + hDstBegin (Node.tile n), w + wDstBegin (Node.tile n))
      = Some (F16.of_float (vy v)) ∧
    mem s' !! (c + 2, h + hDstBegin (Node.tile n), w + wDstBegin (Node.tile n))
      = Some (F16.of_float (vz v)) in
  let ca := if has_ptr (color k) then 3 else 0 in
  let cn := ca + (if has_ptr (albedo k) then 3 else 0) in
  (∀ img, Node.color n = Some img ->
     (hSrc, wSrc) ∈ reads s' ∧
     cells3 0 (color_value k (Image.pixels img hSrc wSrc))) ∧
  (∀ img, Node.albedo n = Some img ->
     (hSrc, wSrc) ∈ reads s' ∧
     cells3 ca (albedo_value k (Image.pixels img hSrc wSrc))) ∧
  (∀ img, Node.normal n = Some img ->
     (hSrc, wSrc) ∈ reads s' ∧
     cells3 cn (normal_value k (Image.pixels img hSrc wSrc))).
Proof.
  intros Hex Hhb Hwb Hh Hw. cbv zeta.
  apply executeKernel_Some in Hex as (-> & input & _ & Hb).
  unfold Node.tile_in_bounds in Hb.
  rewrite !andb_true_iff, !Z.leb_le in Hb. destruct Hb as [[[_ _] Hbh] Hbw].
  set (k := Node.kernel n).
  set (hDst := h + hDstBegin (Node.tile n)).
  set (wDst := w + wDstBegin (Node.tile n)).
  assert (Hrh : 0 <= hDst < H (dst k)) by (unfold hDst; cbn; lia).
  assert (Hrw : 0 <= wDst < W (dst k)) by (unfold wDst; cbn; lia).
  assert (Ht : in_tile k hDst wDst = true)
    by (apply in_tile_spec; unfold hDst, wDst; cbn; lia).
  assert (Hsrc : src_coord k hDst wDst
                 = (h + hSrcBegin (Node.tile n), w + wSrcBegin (Node.tile n)))
    by (unfold src_coord, hDst, wDst; cbn; f_equal; lia).
  assert (Hread : (has_ptr (color k) || has_ptr (albedo k) || has_ptr (normal k)) = true ->
            (h + hSrcBegin (Node.tile n), w + wSrcBegin (Node.tile n))
              ∈ reads (snd (parallel_for k s))).
  { intros Hp. unfold parallel_for.
    destruct (run_items_run k (range2 (H (dst k)) (W (dst k))) s) as (m & -> & _).
    cbn [snd reads]. apply elem_of_app. left.
    apply elem_of_items_reads_iff. split; [done|].
    exists hDst, wDst. split; [by apply elem_of_range2 | done]. }
  fold (result k s).
  pose proof (result_in_tile k s) as Hres.
  split; [|split]; intros img Himg.
  - assert (Hptr : ptr (color k) = Some (Image.pixels img))
      by (cbn; by rewrite Himg).
    split; [apply Hread; unfold has_ptr; by rewrite Hptr|].
    rewrite !Hres by done. rewrite Hsrc. repeat split; image_cases.
  - assert (Hptr : ptr (albedo k) = Some (Image.pixels img))
      by (cbn; by rewrite Himg).
    split; [apply Hread; unfold has_ptr at 2; rewrite Hptr; by destruct (has_ptr (color k))|].
    rewrite !Hres by done. rewrite Hsrc.
    unfold has_ptr. repeat split; image_cases.
  - assert (Hptr : ptr (normal k) = Some (Image.pixels img))
      by (cbn; by rewrite Himg).
    split; [apply Hread; unfold has_ptr at 3; rewrite Hptr;
            by destruct (has_ptr (color k)), (has_ptr (albedo k))|].
    rewrite !Hres by done. rewrite Hsrc.
    unfold has_ptr. repeat split; image_cases.
Qed.

End NodeExtras.

(** ** Sanitized values *)

Lemma ltb_irrefl x : F32.ltb x x = false.
Proof.
  unfold F32.ltb, SFltb, SFcompare.
  destruct x as [[]|[]| |[] m e]; try done;
    by rewrite Z.compare_refl, Pos.compare_cont_refl.
Qed.

Lemma nan_to_zero_not_nan x : F32.isnan (F32.nan_to_zero x) = false.
Proof. by destruct x. Qed.

(** A clamp of a number between two numbers [lo <= hi] is a number that is
    neither below [lo] nor above [hi]. *)
Lemma clamp_range x lo hi :
  F32.isnan x = false -> F32.isnan lo = false -> F32.isnan hi = false ->
  F32.ltb hi lo = false ->
  F32.isnan (F32.clamp x lo hi) = false ∧
  F32.ltb (F32.clamp x lo hi) lo = false ∧
  F32.ltb hi (F32.clamp x lo hi) = false.
Proof.
  intros Hx Hlo Hhi Hle. unfold F32.clamp, F32.min, F32.max.
  destruct (F32.ltb x lo) eqn:H1.
  - destruct (F32.ltb hi lo) eqn:H2; [done|].
    by rewrite ltb_irrefl.
  - destruct (F32.ltb hi x) eqn:H2.
    + by rewrite ltb_irrefl.
    + done.
Qed.

Lemma bounded_is_finite r lo hi :
  F32.is_finite lo = true -> F32.is_finite hi = true ->
  F32.isnan r = false -> F32.ltb r lo = false -> F32.ltb hi r = false ->
  F32.is_finite r = true.
Proof.
  destruct r as [|[]| |]; try done.
  - by destruct lo as [| | |[]].
  - by destruct hi as [| | |[]].
Qed.

Lemma iter_pos_invariant {A} (P : A -> Prop) (f : A -> A) :
  (∀ a, P a -> P (f a)) -> ∀ p a, P a -> P (SpecFloat.iter_pos f p a).
Proof.
  intros Hf p. induction p as [p IH|p IH|]; intros a Ha; cbn; auto.
Qed.

Lemma shr_1_nonneg mrs : 0 <= shr_m mrs -> 0 <= shr_m (shr_1 mrs).
Proof.
  destruct mrs as [m r s]. destruct m as [|p|p]; cbn; [done| |lia].
  intros _. destruct p; cbn; lia.
Qed.

Lemma shr_fexp_nonneg prec emax m e l :
  0 <= m -> 0 <= shr_m (fst (shr_fexp prec emax m e l)).
Proof.
  intros Hm. unfold shr_fexp, shr.
  assert (Hr : 0 <= shr_m (shr_record_of_loc m l)) by (by destruct l as [|[]]).
  case_match; try done. cbn [fst].
  by apply (iter_pos_invariant (fun mrs => 0 <= shr_m mrs) shr_1 shr_1_nonneg).
Qed.

Lemma round_nearest_even_nonneg m l : 0 <= m -> 0 <= round_nearest_even m l.
Proof.
  intros Hm. destruct l as [|[]]; cbn; try lia. case_match; lia.
Qed.

(** Rounding a non-negative mantissa never yields NaN. *)
Lemma binary_round_aux_not_nan prec emax sx mx ex lx :
  0 <= mx -> binary_round_aux prec emax sx mx ex lx ≠ S754_nan.
Proof.
  intros Hm. unfold binary_round_aux.
  pose proof (shr_fexp_nonneg prec emax mx ex lx Hm) as H1.
  destruct (shr_fexp prec emax mx ex lx) as [mrs' e']. cbn [fst] in H1.
  pose proof (shr_fexp_nonneg prec emax _ e' loc_Exact
                (round_nearest_even_nonneg _ (loc_of_shr_record mrs') H1)) as H2.
  destruct (shr_fexp prec emax _ e' loc_Exact) as [mrs'' e'']. cbn [fst] in H2.
  destruct (shr_m mrs''); [done| |lia]. by case_match.
Qed.

Lemma binary_round_not_nan prec emax sx mx ex :
  binary_round prec emax sx mx ex ≠ S754_nan.
Proof.
  unfold binary_round. case_match. by apply binary_round_aux_not_nan.
Qed.

Lemma mul_half_not_nan x :
  F32.isnan x = false -> F32.isnan (F32.mul x F32.half) = false.
Proof.
  destruct x as [s|s| |s m e]; try done. intros _.
  unfold F32.mul, F32.half, SFmul.
  pose proof (binary_round_aux_not_nan F32.prec F32.emax (xorb s false)
                (Z.pos (m * 8388608)) (e + -24) loc_Exact ltac:(lia)) as Hn.
  by destruct (binary_round_aux _ _ _ _ _ _).
Qed.

Lemma add_half_not_nan x :
  F32.isnan x = false -> F32.isnan (F32.add x F32.half) = false.
Proof.
  destruct x as [s|s| |s m e]; try done. intros _.
  unfold F32.add, F32.half, SFadd, binary_normalize.
  case_match; [done| |];
    match goal with |- context [binary_round ?p ?em ?sx ?mx ?ex] =>
      pose proof (binary_round_not_nan p em sx mx ex) as Hn;
      by destruct (binary_round p em sx mx ex) end.
Qed.

Lemma of_float_not_nan x :
  F32.isnan x = false -> is_nan16 (F16.of_float x) = false.
Proof.
  destruct x as [s|s| |s m e]; try done. intros _. unfold F16.of_float.
  pose proof (binary_round_not_nan F16.prec F16.emax s m e) as Hn.
  by destruct (binary_round _ _ _ _ _).
Qed.

Lemma color_cell k s hDst wDst px i :
  0 <= hDst < H (dst k) -> 0 <= wDst < W (dst k) ->
  in_tile k hDst wDst = true -> ptr (color k) = Some px -> 0 <= i < 3 ->
  result k s !! (i, hDst, wDst)
  = Some (F16.of_float (vcomp (color_value k
            (px (hDst - hDstBegin (tile k) + hSrcBegin (tile k))
                (wDst - wDstBegin (tile k) + wSrcBegin (tile k)))) i)).
Proof.
  intros Hh Hw Ht Hp Hi. rewrite result_in_tile by done. image_cases.
  all: by rewrite Z.sub_0_r.
Qed.

Lemma albedo_cell k s hDst wDst px i :
  0 <= hDst < H (dst k) -> 0 <= wDst < W (dst k) ->
  in_tile k hDst wDst = true -> ptr (albedo k) = Some px -> 0 <= i < 3 ->
  result k s !! ((if has_ptr (color k) then 3 else 0) + i, hDst, wDst)
  = Some (F16.of_float (vcomp (albedo_value k
            (px (hDst - hDstBegin (tile k) + hSrcBegin (tile k))
                (wDst - wDstBegin (tile k) + wSrcBegin (tile k)))) i)).
Proof.
  intros Hh Hw Ht Hp Hi. rewrite result_in_tile by done. image_cases.
  all: repeat f_equal; lia.
Qed.

Lemma normal_cell k s hDst wDst px i :
  0 <= hDst < H (dst k) -> 0 <= wDst < W (dst k) ->
  in_tile k hDst wDst = true -> ptr (normal k) = Some px -> 0 <= i < 3 ->
  result k s !! ((if has_ptr (color k) then 3 else 0)
                 + (if has_ptr (albedo k) then 3 else 0) + i, hDst, wDst)
  = Some (F16.of_float (vcomp (normal_value k
            (px (hDst - hDstBegin (tile k) + hSrcBegin (tile k))
                (wDst - wDstBegin (tile k) + wSrcBegin (tile k)))) i)).
Proof.
  intros Hh Hw Ht Hp Hi. rewrite result_in_tile by done. image_cases.
  all: repeat f_equal; lia.
Qed.

Lemma vclamp_range v lo hi i :
  F32.is_finite lo = true -> F32.is_finite hi = true -> F32.ltb hi lo = false ->
  let r := vcomp (vclamp (vnan_to_zero v) lo hi) i in
  F32.isnan r = false ∧ F32.is_finite r = true ∧
  F32.ltb r lo = false ∧ F32.ltb hi r = false.
Proof.
  intros Hlo Hhi Hle. cbv zeta. unfold vclamp, vnan_to_zero. rewrite !vcomp_map.
  destruct (clamp_range (F32.nan_to_zero (vcomp v i)) lo hi) as (Hn & Hl & Hu);
    [apply nan_to_zero_not_nan | by destruct lo | by destruct hi | done |].
  repeat split; try done. by apply (bounded_is_finite _ lo hi).
Qed.

(** Whatever the source pixel and the input scale hold -- NaN and
    infinities included -- the vector that [storeColor] clamps is finite
    and lies between the two bounds of the clamp, and the vector that the
    transfer function receives has no NaN; the same holds for the albedo
    that goes through the transfer function when no color image is
    present. *)
Theorem transfer_argument_sanitized k s hDst wDst i :
  0 <= hDst < H (dst k) -> 0 <= wDst < W (dst k) ->
  in_tile k hDst wDst = true ->
  0 <= i < 3 ->
  let hSrc := hDst - hDstBegin (tile k) + hSrcBegin (tile k) in
  let wSrc := wDst - wDstBegin (tile k) + wSrcBegin (tile k) in
  let tf := transferFunc k in
  (∀ px, ptr (color k) = Some px ->
     let lo := if snorm k then F32.neg_one else F32.zero in
     let hi := if hdr k then F32.max_float else F32.one in
     let clamped := vclamp (vnan_to_zero (vmul (px hSrc wSrc) (getInputScale tf)))
                      lo hi in
     let arg := if snorm k then vadd (vmul clamped F32.half) F32.half
                else clamped in
     result k s !! (i, hDst, wDst)
       = Some (F16.of_float (vcomp (forward tf arg) i)) ∧
     F32.isnan (vcomp arg i) = false ∧
     F32.is_finite (vcomp clamped i) = true ∧
     F32.ltb (vcomp clamped i) lo = false ∧
     F32.ltb hi (vcomp clamped i) = false) ∧
  (∀ px, ptr (albedo k) = Some px -> has_ptr (color k) = false ->
     let arg := vclamp (vnan_to_zero (vmul (px hSrc wSrc) (getInputScale tf)))
                  F32.zero F32.one in
     result k s !! (i, hDst, wDst)
       = Some (F16.of_float (vcomp (forward tf arg) i)) ∧
     F32.is_finite (vcomp arg i) = true ∧
     F32.ltb (vcomp arg i) F32.zero = false ∧
     F32.ltb F32.one (vcomp arg i) = false).
Proof.
  intros Hh Hw Ht Hi. cbv zeta. split.
  - intros px Hp.
    split; [by rewrite (color_cell k s hDst wDst px i)|].
    destruct (vclamp_range
                (vmul (px (hDst - hDstBegin (tile k) + hSrcBegin (tile k))
                          (wDst - wDstBegin (tile k) + wSrcBegin (tile k)))
                   (getInputScale (transferFunc k)))
                (if snorm k then F32.neg_one else F32.zero)
                (if hdr k then F32.max_float else F32.one) i)
      as (Hn & Hf & Hl & Hu);
      [by destruct (snorm k) | by destruct (hdr k)
      | by destruct (snorm k), (hdr k) |].
    repeat split; try done.
    destruct (snorm k); [|done].
    unfold vadd, vmul at 1. rewrite !vcomp_map.
    by apply add_half_not_nan, mul_half_not_nan.
  - intros px Hp Hc.
    pose proof (albedo_cell k s hDst wDst px i Hh Hw Ht Hp Hi) as Hcell.
    rewrite Hc in Hcell. rewrite Z.add_0_l in Hcell.
    unfold albedo_value in Hcell. rewrite Hc in Hcell. cbn [negb] in Hcell.
    split; [done|].
    destruct (vclamp_range
                (vmul (px (hDst - hDstBegin (tile k) + hSrcBegin (tile k))
                          (wDst - wDstBegin (tile k) + wSrcBegin (tile k)))
                   (getInputScale (transferFunc k)))
                F32.zero F32.one i) as (Hn & Hf & Hl & Hu); done.
Qed.

(** The cells that do not go through the transfer function never hold
    NaN, whatever the source pixel and the input scale hold.  A normal cell
    is the half of [a * 0.5 + 0.5] and an albedo cell beside a color image
    the half of [a], for a finite [a] within the bounds of its clamp. *)
Theorem aux_cells_never_nan k s hDst wDst i :
  0 <= hDst < H (dst k) -> 0 <= wDst < W (dst k) ->
  in_tile k hDst wDst = true ->
  0 <= i < 3 ->
  let ca := if has_ptr (color k) then 3 else 0 in
  let cn := ca + (if has_ptr (albedo k) then 3 else 0) in
  (∀ px, ptr (normal k) = Some px ->
     ∃ a, result k s !! (cn + i, hDst, wDst)
            = Some (F16.of_float (F32.add (F32.mul a F32.half) F32.half)) ∧
          is_nan16 (F16.of_float (F32.add (F32.mul a F32.half) F32.half)) = false ∧
          F32.is_finite a = true ∧
          F32.ltb a F32.neg_one = false ∧ F32.ltb F32.one a = false) ∧
  (∀ px, ptr (albedo k) = Some px -> has_ptr (color k) = true ->
     ∃ a, result k s !! (ca + i, hDst, wDst) = Some (F16.of_float a) ∧
          is_nan16 (F16.of_float a) = false ∧
          F32.is_finite a = true ∧
          F32.ltb a F32.zero = false ∧ F32.ltb F32.one a = false).
Proof.
  intros Hh Hw Ht Hi. cbv zeta. split.
  - intros px Hp.
    pose proof (normal_cell k s hDst wDst px i Hh Hw Ht Hp Hi) as Hcell.
    unfold normal_value, vadd, vmul at 1 in Hcell. rewrite !vcomp_map in Hcell.
    match type of Hcell with context [vcomp (vclamp (vnan_to_zero ?v) _ _) i] =>
      destruct (vclamp_range v F32.neg_one F32.one i) as (Hn & Hf & Hl & Hu);
        [done..|] end.
    eexists. split; [exact Hcell|]. repeat split; try done.
    by apply of_float_not_nan, add_half_not_nan, mul_half_not_nan.
  - intros px Hp Hc.
    pose proof (albedo_cell k s hDst wDst px i Hh Hw Ht Hp Hi) as Hcell.
    unfold albedo_value in Hcell. rewrite Hc in Hcell. cbn [negb] in Hcell.
    rewrite Hc.
    match type of Hcell with context [vcomp (vclamp (vnan_to_zero ?v) _ _) i] =>
      destruct (vclamp_range v F32.zero F32.one i) as (Hn & Hf & Hl & Hu);
        [done..|] end.
    eexists. split; [exact Hcell|]. repeat split; try done.
    by apply of_float_not_nan.
Qed.

(** ** The flags and the configuration calls *)

Lemma aux_values_flag_free ca aa na d t tf hdr1 snorm1 hdr2 snorm2 v :
  albedo_value (Build_InputReorder ca aa na d t tf hdr1 snorm1) v
  = albedo_value (Build_InputReorder ca aa na d t tf hdr2 snorm2) v ∧
  normal_value (Build_InputReorder ca aa na d t tf hdr1 snorm1) v
  = normal_value (Build_InputReorder ca aa na d t tf hdr2 snorm2) v.
Proof. done. Qed.

(** The flags [hdr] and [snorm] act on the color channels only: two
    kernels that differ in nothing but these flags leave the same value in
    every cell, except in channels 0 to 2 of the pixels inside the tile
    when a color image is present. *)
Theorem flags_act_on_color_only k1 k2 s c h w :
  color k1 = color k2 -> albedo k1 = albedo k2 -> normal k1 = normal k2 ->
  dst k1 = dst k2 -> tile k1 = tile k2 -> transferFunc k1 = transferFunc k2 ->
  ¬ (has_ptr (color k1) = true ∧ 0 <= c < 3 ∧
     0 <= h < H (dst k1) ∧ 0 <= w < W (dst k1) ∧ in_tile k1 h w = true) ->
  result k1 s !! (c, h, w) = result k2 s !! (c, h, w).
Proof.
  destruct k1 as [ca aa na d t tf hdr1 snorm1], k2 as [ca2 aa2 na2 d2 t2 tf2 hdr2 snorm2].
  cbn [color albedo normal dst tile transferFunc].
  intros <- <- <- <- <- <- Hn. rewrite !result_lookup. cbn [dst].
  case_decide as Hpix; [|done].
  unfold pixel_cell, in_tile, src_coord. cbn [tile dst color albedo normal].
  case_match eqn:Ht; [|done].
  case_decide; [done|].
  set (hSrc := h - hDstBegin t + hSrcBegin t).
  set (wSrc := w - wDstBegin t + wSrcBegin t).
  assert (Hcol : image_cell ca (color_value (Build_InputReorder ca aa na d t tf hdr1 snorm1))
                   0 hSrc wSrc c (mem s !! (c, h, w))
                 = image_cell ca (color_value (Build_InputReorder ca aa na d t tf hdr2 snorm2))
                   0 hSrc wSrc c (mem s !! (c, h, w))).
  { unfold image_cell. destruct (ptr ca) eqn:Hp; [|done].
    case_decide as Hc; [|done]. exfalso. apply Hn. unfold has_ptr, in_tile. cbn.
    rewrite Hp. repeat split; try done; lia. }
  rewrite Hcol. unfold image_cell.
  destruct (ptr na), (ptr aa); repeat case_decide; try done;
    repeat f_equal;
    apply (aux_values_flag_free ca aa na d t tf hdr1 snorm1 hdr2 snorm2).
Qed.

(** The configuration calls compose as assignments: [setSrc] and [setTile]
    may be called in either order, a later [setTile] replaces an earlier
    one, and a later [setSrc] replaces the sources of an earlier one
    (an image left out is forgotten). *)
Theorem configuration_calls_compose n :
  (∀ cimg aimg nimg hSrc wSrc hDst wDst tH tW,
     Node.setSrc cimg aimg nimg (Node.setTile hSrc wSrc hDst wDst tH tW n)
     = Node.setTile hSrc wSrc hDst wDst tH tW <$> Node.setSrc cimg aimg nimg n) ∧
  (∀ a1 b1 c1 d1 e1 f1 a2 b2 c2 d2 e2 f2,
     Node.setTile a2 b2 c2 d2 e2 f2 (Node.setTile a1 b1 c1 d1 e1 f1 n)
     = Node.setTile a2 b2 c2 d2 e2 f2 n) ∧
  (∀ c1 a1 n1 c2 a2 n2 n',
     Node.setSrc c1 a1 n1 n = Some n' ->
     Node.setSrc c2 a2 n2 n' = Node.setSrc c2 a2 n2 n).
Proof.
  split; [|split].
  - intros. unfold Node.setSrc, Node.setTile. cbn. by case_match.
  - done.
  - intros c1 a1 n1 c2 a2 n2 n'. unfold Node.setSrc.
    case_match; [|done]. by intros [= <-].
Qed.

(** The channel bound is exact: with a tile that is not empty, a work-item
    keeps its writes inside the channels [[0, C)] if and only if no image
    is present or the three channels of every present image fit in [C]. *)
Theorem channel_bound_exact k :
  0 < tileH (tile k) -> 0 < tileW (tile k) ->
  let n := (if has_ptr (color k) then 3 else 0) + (if has_ptr (albedo k) then 3 else 0)
           + (if has_ptr (normal k) then 3 else 0) in
  writes_within_C k ↔ n = 0 ∨ n <= C (dst k).
Proof.
  intros HtH HtW. cbv zeta. split.
  - intros Hw.
    destruct (decide ((if has_ptr (color k) then 3 else 0)
                      + (if has_ptr (albedo k) then 3 else 0)
                      + (if has_ptr (normal k) then 3 else 0) <= C (dst k)))
      as [Hfit|Hfit]; [by right|]. left.
    destruct (decide ((if has_ptr (color k) then 3 else 0)
                      + (if has_ptr (albedo k) then 3 else 0)
                      + (if has_ptr (normal k) then 3 else 0) = 0))
      as [Hz|Hz]; [done|]. exfalso.
    set (c := (if has_ptr (color k) then 3 else 0)
              + (if has_ptr (albedo k) then 3 else 0)
              + (if has_ptr (normal k) then 3 else 0) - 1) in *.
    specialize (Hw empty_state (hDstBegin (tile k)) (wDstBegin (tile k)) c
                  (hDstBegin (tile k)) (wDstBegin (tile k))).
    destruct (call_run k (hDstBegin (tile k)) (wDstBegin (tile k)) empty_state)
      as (m & Hrun & Hm).
    rewrite Hrun in Hw. cbn [snd mem empty_state] in Hw.
    rewrite Hm, decide_True, lookup_empty in Hw by done.
    assert (Ht : in_tile k (hDstBegin (tile k)) (wDstBegin (tile k)) = true)
      by (apply in_tile_spec; lia).
    unfold pixel_cell, src_coord, image_cell, next_channel, has_ptr in *.
    rewrite Ht in Hw. unfold c in *. clear c.
    destruct (ptr (color k)), (ptr (albedo k)), (ptr (normal k));
      cbn in *; try lia;
      (rewrite decide_False in Hw by lia);
      repeat (case_decide; try lia);
      (by specialize (Hw ltac:(lia))).
  - intros Hfit s hDst wDst c h w Hout.
    destruct (call_run k hDst wDst s) as (m & -> & Hm).
    cbn [snd mem]. rewrite Hm. case_decide as Hpix; [|done].
    unfold pixel_cell, src_coord, image_cell, next_channel, has_ptr in *.
    destruct (in_tile k hDst wDst).
    + destruct (ptr (color k)), (ptr (albedo k)), (ptr (normal k));
        cbn in *; repeat case_decide; try done; exfalso; lia.
    + case_decide; [exfalso; lia | done].
Qed.


Lemma above_max_above_one m :
  F32.ltb F32.max_float m = true -> F32.ltb F32.one m = true.
Proof.
  destruct m as [[]|[]| |[] p e]; try done.
  unfold F32.ltb, SFltb, SFcompare, F32.max_float, F32.one.
  destruct (Z.compare_spec 104 e) as [<-|Hlt|Hgt]; try done.
  intros _. by destruct (Z.compare_spec (-23) e) as [<-|?|?]; try lia.
Qed.

Lemma clamp_hdr_same x lo :
  F32.ltb F32.one lo = false ->
  F32.ltb F32.one x = false ->
  F32.clamp x lo F32.max_float = F32.clamp x lo F32.one.
Proof.
  intros Hlo Hx. unfold F32.clamp, F32.min.
  assert (Hm : F32.ltb F32.one (F32.max x lo) = false)
    by (unfold F32.max; by case_match).
  rewrite Hm.
  destruct (F32.ltb F32.max_float (F32.max x lo)) eqn:Hbig; [|done].
  apply above_max_above_one in Hbig. congruence.
Qed.

Lemma nan_to_zero_below_one x :
  F32.ltb F32.one x = false -> F32.ltb F32.one (F32.nan_to_zero x) = false.
Proof. by destruct x. Qed.

(** The flag [hdr] matters only above 1: on a pixel whose scaled color
    components do not exceed 1, two kernels that differ in nothing but
    [hdr] write the same color channels. *)
Theorem hdr_matters_above_one_only k1 k2 s hDst wDst px c :
  color k1 = color k2 -> albedo k1 = albedo k2 -> normal k1 = normal k2 ->
  dst k1 = dst k2 -> tile k1 = tile k2 ->
  transferFunc k1 = transferFunc k2 -> snorm k1 = snorm k2 ->
  0 <= hDst < H (dst k1) -> 0 <= wDst < W (dst k1) ->
  in_tile k1 hDst wDst = true ->
  ptr (color k1) = Some px ->
  (∀ i, 0 <= i < 3 ->
     F32.ltb F32.one
       (vcomp (vmul (px (hDst - hDstBegin (tile k1) + hSrcBegin (tile k1))
                        (wDst - wDstBegin (tile k1) + wSrcBegin (tile k1)))
                 (getInputScale (transferFunc k1))) i) = false) ->
  0 <= c < 3 ->
  result k1 s !! (c, hDst, wDst) = result k2 s !! (c, hDst, wDst).
Proof.
  destruct k1 as [ca aa na d t tf hdr1 sn], k2 as [ca2 aa2 na2 d2 t2 tf2 hdr2 sn2].
  cbn [color albedo normal dst tile transferFunc snorm].
  intros <- <- <- <- <- <- <- Hh Hw Ht Hp Hle Hc.
  rewrite (color_cell _ s hDst wDst px c) by done.
  rewrite (color_cell _ s hDst wDst px c) by done.
  cbn [tile]. do 3 f_equal. unfold color_value. cbn [transferFunc snorm hdr].
  set (v := vmul _ _) in *.
  assert (Hv : ∀ lo, F32.ltb F32.one lo = false ->
            vclamp (vnan_to_zero v) lo F32.max_float
            = vclamp (vnan_to_zero v) lo F32.one).
  { intros lo Hlo. unfold vclamp, vnan_to_zero, vec3_map. cbn [vx vy vz].
    pose proof (Hle 0 ltac:(lia)) as H0. pose proof (Hle 1 ltac:(lia)) as H1.
    pose proof (Hle 2 ltac:(lia)) as H2. cbn in H0, H1, H2.
    f_equal; by apply clamp_hdr_same, nan_to_zero_below_one. }
  assert (Hall : ∀ h1 h2,
            vclamp (vnan_to_zero v) (if sn then F32.neg_one else F32.zero)
              (if h1 : bool then F32.max_float else F32.one)
            = vclamp (vnan_to_zero v) (if sn then F32.neg_one else F32.zero)
                (if h2 : bool then F32.max_float else F32.one)).
  { intros [] []; try done; [|symmetry]; apply Hv; by destruct sn. }
  by rewrite (Hall hdr1 hdr2).
Qed.

(** ** The further properties at concrete inputs *)

Lemma dispatch_write_set_witness :
  is_Some (result Sample.kernel9 empty_state !! (0, 0, 0)) ∧
  result Sample.kernel9 empty_state !! (9, 1, 1) = mem empty_state !! (9, 1, 1).
Proof.
  split.
  - apply (proj1 (dispatch_write_set Sample.kernel9 empty_state 0 0 0)). cbn. lia.
  - apply (proj2 (dispatch_write_set Sample.kernel9 empty_state 9 1 1)); cbn; lia.
Defined.

Lemma schedule_order_irrelevant_witness :
  mem (snd (run_items Sample.kernel9 [(1, 1); (1, 2)] empty_state))
  = mem (snd (run_items Sample.kernel9 [(1, 2); (1, 1)] empty_state)).
Proof.
  apply (proj1 (schedule_order_irrelevant Sample.kernel9
                  [(1, 1); (1, 2)] [(1, 2); (1, 1)] empty_state
                  (perm_swap (1, 2) (1, 1) []))).
Defined.

Lemma tile_pixels_land_witness :
  let n := Node.setTile 0 0 1 1 2 2 (Sample.with_rgb Sample.tensor9) in
  let s' := snd (parallel_for (Node.kernel n) empty_state) in
  (1, 1) ∈ reads s' ∧
  mem s' !! (0, 2, 2)
    = Some (F16.of_float (vx (color_value (Node.kernel n) (Sample.color_px 1 1)))).
Proof.
  cbv zeta.
  destruct (proj1 (tile_pixels_land Sample.first_input
              (Node.setTile 0 0 1 1 2 2 (Sample.with_rgb Sample.tensor9))
              empty_state _ 1 1 eq_refl
              ltac:(cbn; lia) ltac:(cbn; lia) ltac:(cbn; lia) ltac:(cbn; lia))
              Sample.rgb eq_refl) as (Hr & Hc & _).
  split; [exact Hr | exact Hc].
Defined.

Lemma transfer_argument_sanitized_witness :
  let clamped := vclamp (vnan_to_zero (vmul (Sample.inf_px 0 0) F32.one))
                   F32.zero F32.max_float in
  result Sample.kernel_hdr empty_state !! (0, 0, 0)
    = Some (F16.of_float (vcomp (forward Sample.reinhard clamped) 0)) ∧
  F32.is_finite (vcomp clamped 0) = true.
Proof.
  cbv zeta.
  destruct (proj1 (transfer_argument_sanitized Sample.kernel_hdr empty_state 0 0 0
              ltac:(cbn; lia) ltac:(cbn; lia) eq_refl ltac:(lia))
              Sample.inf_px eq_refl) as (Hc & _ & Hf & _).
  split; [exact Hc | exact Hf].
Defined.

Lemma aux_cells_never_nan_witness :
  ∃ v, result Sample.kernel9 empty_state !! (6, 1, 1) = Some v ∧ is_nan16 v = false.
Proof.
  destruct (proj1 (aux_cells_never_nan Sample.kernel9 empty_state 1 1 0
              ltac:(cbn; lia) ltac:(cbn; lia) eq_refl ltac:(lia))
              Sample.normal_px eq_refl) as (a & Hc & Hn & _).
  eexists. split; [exact Hc | exact Hn].
Defined.

Lemma flags_act_on_color_only_witness :
  result Sample.kernel9 empty_state !! (4, 1, 1)
  = result (Build_InputReorder (color Sample.kernel9) (albedo Sample.kernel9)
              (normal Sample.kernel9) (dst Sample.kernel9) (tile Sample.kernel9)
              (transferFunc Sample.kernel9) true true) empty_state !! (4, 1, 1).
Proof.
  apply flags_act_on_color_only; try reflexivity.
  intros (_ & Hc & _). lia.
Defined.

Lemma configuration_calls_compose_witness :
  Node.setSrc None None None (Sample.with_rgb Sample.tensor9)
  = Node.setSrc None None None (Sample.made Sample.tensor9).
Proof.
  apply (proj2 (proj2 (configuration_calls_compose (Sample.made Sample.tensor9)))
           (Some Sample.rgb) None None None None None). reflexivity.
Defined.

Lemma channel_bound_exact_witness : writes_within_C Sample.kernel9.
Proof.
  apply (proj2 (channel_bound_exact Sample.kernel9 ltac:(cbn; lia) ltac:(cbn; lia))).
  right. cbn. lia.
Defined.


Lemma hdr_matters_above_one_only_witness :
  let sdr := Build_InputReorder {| ptr := Some Sample.albedo_px |} {| ptr := None |}
               {| ptr := None |} {| C := 3; H := 4; W := 4 |}
               Sample.tile22 Sample.linear false false in
  let hdr := Build_InputReorder {| ptr := Some Sample.albedo_px |} {| ptr := None |}
               {| ptr := None |} {| C := 3; H := 4; W := 4 |}
               Sample.tile22 Sample.linear true false in
  result sdr empty_state !! (1, 2, 2) = result hdr empty_state !! (1, 2, 2).
Proof.
  cbv zeta.
  apply (hdr_matters_above_one_only _ _ empty_state 2 2 Sample.albedo_px 1);
    try reflexivity; try (cbn; lia).
  intros i Hi. assert (i = 0 ∨ i = 1 ∨ i = 2) as [-> | [-> | ->]] by lia;
    reflexivity.
Defined.
